(** * Federated login server (server.js): identity store, provider verify
      callbacks, session codec and the bearer-token gate.

    The development follows server.js block by block.  JavaScript values that
    the code reads or stores are kept as they are at run time: a property that
    may be missing is an [option] or a [JsVal], the [users] Map is an
    insertion-ordered list of key/value pairs, and the statements of a verify
    callback run in a small state-and-exception monad whose state holds the
    Map together with the number of [new Date()] and [crypto.randomUUID()]
    calls made so far. *)

From stdpp Require Import base option list strings relations.
From Stdlib Require Import ZArith Lia Ascii.


(** ** JavaScript values read from a provider profile *)

Inductive JsVal : Type :=
  | JUndefined
  | JNull
  | JStr (s : string).

Global Instance JsVal_eq_dec : EqDecision JsVal.
Proof. solve_decision. Defined.

(** Truthiness as used by [||], [? :] and [if (...)]: undefined, null and
    the empty string are falsy. *)
Definition truthy (v : JsVal) : bool :=
  match v with
  | JUndefined | JNull => false
  | JStr s => negb (String.eqb s "")
  end.

(** [a || b] *)
Definition js_or (a b : JsVal) : JsVal := if truthy a then a else b.

(** An element of [profile.emails] or [profile.photos]: an object whose
    [value] property is read. *)
Record Entry : Type := mkEntry { value : JsVal }.

Module Profile.
Record t : Type := mk {
  id : string;
  displayName : JsVal;
  username : JsVal;
  emails : option (list Entry);   (* None: the property is undefined *)
  photos : option (list Entry)
}.
End Profile.

(** ** The user object stored in the Map *)

Module User.
Record t : Type := mk {
  id : string;
  googleId : option string;       (* None: the object has no such property *)
  githubId : option string;
  email : JsVal;
  name : JsVal;
  avatar : JsVal;
  provider : string;
  accessToken : string;
  refreshToken : JsVal;
  createdAt : Z;                  (* Date, as milliseconds *)
  lastLogin : Z
}.

Definition set_lastLogin (d : Z) (u : t) : t :=
  mk (id u) (googleId u) (githubId u) (email u) (name u) (avatar u)
     (provider u) (accessToken u) (refreshToken u) (createdAt u) d.

Definition set_accessToken (a : string) (u : t) : t :=
  mk (id u) (googleId u) (githubId u) (email u) (name u) (avatar u)
     (provider u) a (refreshToken u) (createdAt u) (lastLogin u).
End User.

Global Instance Entry_eq_dec : EqDecision Entry.
Proof. solve_decision. Defined.
Global Instance Profile_eq_dec : EqDecision Profile.t.
Proof. solve_decision. Defined.
Global Instance User_eq_dec : EqDecision User.t.
Proof. solve_decision. Defined.

(** ** [const users = new Map()] *)

Module JsMap.
(** Entries in insertion order; [set] keeps the keys distinct. *)
Abbreviation t := (list (string * User.t)).

Definition empty : t := [].

(** [m.set(k, v)]: an existing key keeps its place and takes the new value,
    a new key goes to the end. *)
Fixpoint set (k : string) (v : User.t) (m : t) : t :=
  match m with
  | [] => [(k, v)]
  | (k', v') :: m' =>
      if decide (k' = k) then (k, v) :: m' else (k', v') :: set k v m'
  end.

(** [m.get(k)]: None stands for undefined. *)
Fixpoint get (k : string) (m : t) : option User.t :=
  match m with
  | [] => None
  | (k', v') :: m' => if decide (k' = k) then Some v' else get k m'
  end.

(** [m.delete(k)] *)
Definition delete (k : string) (m : t) : t :=
  filter (λ kv, kv.1 ≠ k) m.

(** [Array.from(m.values())] *)
Definition values (m : t) : list User.t := m.*2.

Definition keys (m : t) : list string := m.*1.
End JsMap.

(** ** State and exceptions *)

Inductive JsError : Type :=
  | TypeError (msg : string).

Record World : Type := mkWorld {
  users : JsMap.t;
  dates : nat;      (* how many times [new Date()] ran *)
  uuids : nat       (* how many times [crypto.randomUUID()] ran *)
}.

Inductive Completion (A : Type) : Type :=
  | Normal (a : A)
  | Throw (e : JsError).
Arguments Normal {A} a.
Arguments Throw {A} e.

Definition Eff (A : Type) : Type := World → Completion A * World.

Definition ret {A} (a : A) : Eff A := λ w, (Normal a, w).

Definition bind {A B} (m : Eff A) (k : A → Eff B) : Eff B :=
  λ w, match m w with
       | (Normal a, w') => k a w'
       | (Throw e, w') => (Throw e, w')
       end.

Definition throw {A} (e : JsError) : Eff A := λ w, (Throw e, w).

(** [try { body } catch (error) { handler }] *)
Definition try_catch {A} (body : Eff A) (handler : JsError → Eff A) : Eff A :=
  λ w, match body w with
       | (Normal a, w') => (Normal a, w')
       | (Throw e, w') => handler e w'
       end.

Declare Scope eff_scope.
Delimit Scope eff_scope with eff.
Notation "'let*' x := m 'in' k" := (bind m (λ x, k))
  (at level 10, x name, m at level 100, k at level 200) : eff_scope.
Notation "m ;;; k" := (bind m (λ _, k))
  (at level 100, k at level 200, right associativity) : eff_scope.
Local Open Scope eff_scope.

(** What a callback hands to passport: [done(err, result)].  [None] in the
    first place is a null error, [None] in the second a null or undefined
    result. *)
Record Done (A : Type) : Type := done { err : option JsError; result : option A }.
Arguments done {A} err result.
Arguments err {A} d.
Arguments result {A} d.

Section Server.

(** The two sources of values that the process does not compute itself:
    the i-th reading of the clock and the i-th identifier returned by
    [crypto.randomUUID()]. *)
Variable clock : nat → Z.
Variable uuid_source : nat → string.

(** [new Date()] *)
Definition new_Date : Eff Z :=
  λ w, (Normal (clock (dates w)), mkWorld (users w) (S (dates w)) (uuids w)).

(** [crypto.randomUUID()] *)
Definition randomUUID : Eff string :=
  λ w, (Normal (uuid_source (uuids w)),
        mkWorld (users w) (dates w) (S (uuids w))).

(** [Array.from(users.values()).find(pred)]: the first user, in insertion
    order, that satisfies [pred].  The result is a reference to the stored
    object, kept here as its position in the Map. *)
Definition users_find (pred : User.t → Prop) `{!∀ u, Decision (pred u)}
  : Eff (option nat) :=
  λ w, (Normal (fst <$> list_find pred (JsMap.values (users w))), w).

(** [ref.field = v] on a stored object. *)
Definition assign (ref : nat) (f : User.t → User.t) : Eff unit :=
  λ w, (Normal tt,
        mkWorld (alter (λ kv, (kv.1, f kv.2)) ref (users w))
                (dates w) (uuids w)).

(** Reading a stored object through its reference. *)
Definition deref (ref : nat) : Eff (option User.t) :=
  λ w, (Normal (snd <$> users w !! ref), w).

(** [users.set(k, v)] *)
Definition users_set (k : string) (v : User.t) : Eff unit :=
  λ w, (Normal tt, mkWorld (JsMap.set k v (users w)) (dates w) (uuids w)).

(** [arr[0].value]: a TypeError when [arr] is undefined, and when [arr] is
    empty (then [arr[0]] is undefined). *)
Definition first_value (arr : option (list Entry)) : Eff JsVal :=
  match arr with
  | None => throw (TypeError "Cannot read properties of undefined (reading '0')")
  | Some [] => throw (TypeError "Cannot read properties of undefined (reading 'value')")
  | Some (e :: _) => ret (value e)
  end.

(** server.js:75-105, the GoogleStrategy verify callback. *)
Definition googleVerify (accessToken : string) (refreshToken : JsVal)
    (profile : Profile.t) : Eff (Done User.t) :=
  try_catch
    (let* existingUser :=
       users_find (λ user, User.googleId user = Some (Profile.id profile)) in
     match existingUser with
     | Some ref =>
         let* now := new_Date in
         assign ref (User.set_lastLogin now) ;;;
         assign ref (User.set_accessToken accessToken) ;;;
         let* u := deref ref in
         ret (done None u)
     | None =>
         let* id := randomUUID in
         let* email := first_value (Profile.emails profile) in
         let* avatar := first_value (Profile.photos profile) in
         let* createdAt := new_Date in
         let* lastLogin := new_Date in
         let newUser :=
           User.mk id (Some (Profile.id profile)) None email
                   (Profile.displayName profile) avatar "google"
                   accessToken refreshToken createdAt lastLogin in
         users_set (User.id newUser) newUser ;;;
         ret (done None (Some newUser))
     end)
    (λ error, ret (done (Some error) None)).

(** server.js:113-143, the GitHubStrategy verify callback. *)
Definition githubVerify (accessToken : string) (refreshToken : JsVal)
    (profile : Profile.t) : Eff (Done User.t) :=
  try_catch
    (let* existingUser :=
       users_find (λ user, User.githubId user = Some (Profile.id profile)) in
     match existingUser with
     | Some ref =>
         let* now := new_Date in
         assign ref (User.set_lastLogin now) ;;;
         assign ref (User.set_accessToken accessToken) ;;;
         let* u := deref ref in
         ret (done None u)
     | None =>
         let* id := randomUUID in
         let* email :=
           match Profile.emails profile with
           | Some arr => first_value (Some arr)
           | None => ret JNull
           end in
         let name := js_or (Profile.displayName profile)
                           (Profile.username profile) in
         let* avatar := first_value (Profile.photos profile) in
         let* createdAt := new_Date in
         let* lastLogin := new_Date in
         let newUser :=
           User.mk id None (Some (Profile.id profile)) email name avatar
                   "github" accessToken refreshToken createdAt lastLogin in
         users_set (User.id newUser) newUser ;;;
         ret (done None (Some newUser))
     end)
    (λ error, ret (done (Some error) None)).

(** server.js:60-62, [passport.serializeUser]. *)
Definition serializeUser (user : User.t) : Eff (Done string) :=
  ret (done None (Some (User.id user))).

(** server.js:64-67, [passport.deserializeUser]. *)
Definition deserializeUser (id : string) : Eff (Done User.t) :=
  λ w, let user := JsMap.get id (users w) in
       (Normal (done None user), w).

(** *** Reconciliation as the OAuth library drives it

    [passport.authenticate('google', ...)] and
    [passport.authenticate('github', ...)] select the verify callback by the
    strategy name. *)
Inductive Provider : Type := google | github.

Record Call : Type := mkCall {
  call_provider : Provider;
  call_accessToken : string;
  call_refreshToken : JsVal;
  call_profile : Profile.t
}.

Definition reconcile (c : Call) : Eff (Done User.t) :=
  match call_provider c with
  | google =>
      googleVerify (call_accessToken c) (call_refreshToken c) (call_profile c)
  | github =>
      githubVerify (call_accessToken c) (call_refreshToken c) (call_profile c)
  end.

(** The provider subject id an identity holds for a provider. *)
Definition subject_of (p : Provider) (u : User.t) : option string :=
  match p with
  | google => User.googleId u
  | github => User.githubId u
  end.

(** Callbacks executed one after another. *)
Fixpoint run_calls (cs : list Call) (w : World) : World :=
  match cs with
  | [] => w
  | c :: cs' => run_calls cs' (reconcile c w).2
  end.

(** The process starts with [users = new Map()]. *)
Definition initial : World := mkWorld JsMap.empty 0 0.

Definition reachable (w : World) : Prop := ∃ cs, w = run_calls cs initial.

End Server.

Global Instance Provider_eq_dec : EqDecision Provider.
Proof. solve_decision. Defined.

(** ** The bearer-token gate (server.js:146-163) *)

Module Jwt.
(** The payload signed at server.js:528-537, with the two timestamps that
    the token library adds. *)
Record Claims : Type := mkClaims {
  id : string;
  email : JsVal;
  name : JsVal;
  provider : string;
  iat : Z;
  exp : Z
}.

(** The error classes the token library passes to the callback. *)
Inductive Error : Type :=
  | TokenExpiredError
  | JsonWebTokenError (message : string)
  | NotBeforeError.

(** The pair [(err, user)] given to the callback of [jwt.verify]. *)
Inductive Verdict : Type :=
  | Invalid (err : Error)
  | Valid (user : Claims).
End Jwt.

(** [s.split(sep)] for a one-character separator: every occurrence of the
    separator ends a part, so the empty string gives one empty part. *)
Fixpoint split (sep : ascii) (s : string) : list string :=
  match s with
  | EmptyString => [""]
  | String c s' =>
      if decide (c = sep) then "" :: split sep s'
      else match split sep s' with
           | part :: parts => String c part :: parts
           | [] => [String c ""]
           end
  end.

(** What the middleware does with the request: it either calls [next()] with
    [req.user] set, or answers [res.status(code).json({ error: message })]. *)
Inductive GateOutcome : Type :=
  | Next (req_user : Jwt.Claims)
  | Respond (status : Z) (error : string).

Section BearerGate.

(** [jwt.verify(token, secret, callback)] belongs to the jsonwebtoken
    package; the gate only looks at what the callback receives.  The token
    argument is [None] when the expression that computes it is undefined. *)
Variable jwt_verify : option string → string → Jwt.Verdict.

(** [config.jwt.secret] *)
Variable secret : string.

(** [authHeader.split(' ')[1]] *)
Definition header_token (authHeader : string) : option string :=
  split " "%char authHeader !! 1%nat.

(** [authHeader] is [req.headers.authorization]: [None] when the request
    has no such header.  [if (authHeader)] also fails for the empty
    string. *)
Definition authenticateJWT (authHeader : option string) : GateOutcome :=
  let missing := Respond 401 "Token di accesso richiesto" in
  match authHeader with
  | Some h =>
      if String.eqb h "" then missing
      else
        let token := header_token h in
        match jwt_verify token secret with
        | Jwt.Invalid _ => Respond 403 "Token non valido"
        | Jwt.Valid user => Next user
        end
  | None => missing
  end.

End BearerGate.

(** ** Several callbacks in flight

    Node runs JavaScript on one thread: a piece of code between two [await]
    points runs to its end before any other callback starts.  A task is the
    list of the pieces it still has to run, and the event loop repeatedly
    picks some task and runs its next piece. *)

Definition Task : Type := list (World → World).

Inductive loop_step : list Task * World → list Task * World → Prop :=
  | loop_run_piece (tasks : list Task) (i : nat) (piece : World → World)
      (rest : Task) (w : World) :
      tasks !! i = Some (piece :: rest) →
      loop_step (tasks, w) (<[i := rest]> tasks, piece w).

(** All tasks have run to their end. *)
Definition all_finished (tasks : list Task) : Prop :=
  Forall (λ t : Task, t = []) tasks.

Section Concurrent.
Variable clock : nat → Z.
Variable uuid_source : nat → string.

(** The body of a verify callback contains no [await]: the whole of it,
    from the lookup to [users.set], is one piece. *)
Definition callback_task (c : Call) : Task :=
  [λ w, (reconcile clock uuid_source c w).2].
End Concurrent.

(** ** Vocabulary of the statements *)

(** The stored identities that hold subject id [s] for provider [p]. *)
Definition holders (p : Provider) (s : string) (m : JsMap.t) : list User.t :=
  filter (λ u, subject_of p u = Some s) (JsMap.values m).

(** [arr[0]] exists. *)
Definition has_first (arr : option (list Entry)) : bool :=
  match arr with
  | Some (_ :: _) => true
  | _ => false
  end.

(** The profile has every element that the creation branch of the callback
    dereferences: [photos[0]] on both paths, [emails[0]] on the Google path,
    and on the GitHub path [emails[0]] whenever [emails] is there at all. *)
Definition creatable (p : Provider) (profile : Profile.t) : bool :=
  match p with
  | google =>
      has_first (Profile.emails profile) && has_first (Profile.photos profile)
  | github =>
      match Profile.emails profile with
      | Some [] => false
      | _ => true
      end && has_first (Profile.photos profile)
  end.

(** What a callback leaves behind, written out branch by branch. *)
Section Branches.
Variable clock : nat → Z.
Variable uuid_source : nat → string.

(** The object built by the creation branch. *)
Definition created (c : Call) (w : World) : User.t :=
  let profile := call_profile c in
  let id := uuid_source (uuids w) in
  let avatar := default JUndefined (value <$> (Profile.photos profile ≫= head)) in
  let createdAt := clock (dates w) in
  let lastLogin := clock (S (dates w)) in
  match call_provider c with
  | google =>
      User.mk id (Some (Profile.id profile)) None
        (default JUndefined (value <$> (Profile.emails profile ≫= head)))
        (Profile.displayName profile) avatar "google"
        (call_accessToken c) (call_refreshToken c) createdAt lastLogin
  | github =>
      User.mk id None (Some (Profile.id profile))
        (default JNull (value <$> (Profile.emails profile ≫= head)))
        (js_or (Profile.displayName profile) (Profile.username profile))
        avatar "github"
        (call_accessToken c) (call_refreshToken c) createdAt lastLogin
  end.

(** The two assignments of the branch for a known subject. *)
Definition touched (c : Call) (w : World) (u : User.t) : User.t :=
  User.set_accessToken (call_accessToken c)
    (User.set_lastLogin (clock (dates w)) u).

Definition lookup_subject (c : Call) (w : World) : option (nat * User.t) :=
  list_find (λ u, subject_of (call_provider c) u = Some (Profile.id (call_profile c)))
            (JsMap.values (users w)).

End Branches.

(** A Map as the callbacks build it: entries are filed under the [id] of
    the object, and no object carries the subject ids of two providers. *)
Record store_ok (m : JsMap.t) : Prop := mk_store_ok {
  ok_keys : NoDup (JsMap.keys m);
  ok_id : ∀ k u, (k, u) ∈ m → User.id u = k;
  ok_one_provider : ∀ u,
    u ∈ JsMap.values m → User.googleId u = None ∨ User.githubId u = None
}.

(** The state of the event loop while callbacks for one subject are in
    flight. *)
Section InFlightState.
Variable clock : nat → Z.
Variable uuid_source : nat → string.
Variables (p : Provider) (s : string).

(** A callback for the subject [s] of provider [p]. *)
Definition for_subject (c : Call) : Prop :=
  call_provider c = p ∧ Profile.id (call_profile c) = s.

(** The creation branch can read the profile of the call. *)
Definition readable (c : Call) : bool := creatable p (call_profile c).

(** What holds between two pieces.  Every task is a whole callback for the
    subject or has ended.  Either the subject is still unknown, and then no
    callback with a readable profile has run; or exactly one identity holds
    it, and then some callback has a readable profile. *)
Definition in_flight (cs : list Call) (size0 : nat)
    (st : list Task * World) : Prop :=
  Forall2 (λ c (t : Task),
             for_subject c ∧
             (t = [] ∨ t = callback_task clock uuid_source c)) cs st.1 ∧
  ((holders p s (users st.2) = [] ∧ length (users st.2) = size0 ∧
    Forall2 (λ c (t : Task), readable c = true → t ≠ []) cs st.1)
   ∨ (length (holders p s (users st.2)) = 1 ∧
      length (users st.2) ≤ S size0 ∧
      Exists (λ c, readable c = true) cs)).

End InFlightState.

(** The string contains the separator of [split(' ')]. *)
Fixpoint has_space (s : string) : bool :=
  match s with
  | EmptyString => false
  | String c s' => if decide (c = " "%char) then true else has_space s'
  end.

(** ** Concrete surroundings used to evaluate the code *)

Definition sample_clock (n : nat) : Z := (1700000000000 + Z.of_nat n)%Z.

Definition sample_uuid (n : nat) : string :=
  String.append "uuid-" (String.concat "" (replicate n "i")).

Definition sample_claims : Jwt.Claims :=
  Jwt.mkClaims "uuid-" (JStr "a@x.com") (JStr "Ann") "google"
               1700000000 1700086400.

(** A stand-in for the token library on three fixed tokens. *)
Definition sample_verify (token : option string) (secret : string)
  : Jwt.Verdict :=
  match token with
  | None => Jwt.Invalid (Jwt.JsonWebTokenError "jwt must be provided")
  | Some t =>
      if String.eqb t "good.token.sig" then Jwt.Valid sample_claims
      else if String.eqb t "old.token.sig" then Jwt.Invalid Jwt.TokenExpiredError
      else Jwt.Invalid (Jwt.JsonWebTokenError "jwt malformed")
  end.

Definition ann_google : Profile.t :=
  Profile.mk "g-42" (JStr "Ann") JUndefined
             (Some [mkEntry (JStr "a@x.com")]) (Some [mkEntry (JStr "ann.png")]).

Definition ann_github : Profile.t :=
  Profile.mk "g-42" JUndefined (JStr "ann") None
             (Some [mkEntry (JStr "ann-gh.png")]).

Definition ann_google_call : Call := mkCall google "ya29.first" JUndefined ann_google.

Definition ann_github_call : Call := mkCall github "gho_first" JUndefined ann_github.

(** The same Google subject with every profile field changed. *)
Definition ann_google_renamed : Profile.t :=
  Profile.mk "g-42" (JStr "Ann Lee") JUndefined
             (Some [mkEntry (JStr "ann.lee@x.com")])
             (Some [mkEntry (JStr "lee.png")]).

Definition ann_google_again : Call :=
  mkCall google "ya29.second" JUndefined ann_google_renamed.

(** A GitHub profile that came without a [photos] array. *)
Definition bea_github_no_photo : Profile.t :=
  Profile.mk "gh-7" (JStr "Bea") (JStr "bea") (Some [mkEntry (JStr "b@x.com")]) None.

(** ** The rest of server.js *)

(** *** Configuration (server.js:23-42) *)

(** [process.env.NAME || fallback]: an environment variable is a string or
    undefined, and the empty string is falsy. *)
Definition env_or (value : option string) (fallback : string) : string :=
  match value with
  | Some s => if String.eqb s "" then fallback else s
  | None => fallback
  end.

Module Config.
Record t : Type := mk {
  google_clientID : string;
  google_clientSecret : string;
  google_callbackURL : string;
  github_clientID : string;
  github_clientSecret : string;
  github_callbackURL : string;
  jwt_secret : string;
  jwt_expiresIn : string;
  session_secret : string
}.
End Config.

(** [const config = { ... }], with [env] for [process.env]. *)
Definition config (env : string → option string) : Config.t :=
  Config.mk
    (env_or (env "GOOGLE_CLIENT_ID") "your-google-client-id")
    (env_or (env "GOOGLE_CLIENT_SECRET") "your-google-client-secret")
    "/auth/google/callback"
    (env_or (env "GITHUB_CLIENT_ID") "your-github-client-id")
    (env_or (env "GITHUB_CLIENT_SECRET") "your-github-client-secret")
    "/auth/github/callback"
    (env_or (env "JWT_SECRET") "your-jwt-secret-key")
    "24h"
    (env_or (env "SESSION_SECRET") "your-session-secret").

(** The line of the start-up report for one provider, server.js:681-682:
    [clientID && clientID !== placeholder ? '✅ Configurato' : '❌ Non configurato']. *)
Definition startup_status (clientID placeholder : string) : string :=
  if negb (String.eqb clientID "") && negb (String.eqb clientID placeholder)
  then "✅ Configurato" else "❌ Non configurato".

Definition startup_google (cfg : Config.t) : string :=
  startup_status (Config.google_clientID cfg) "your-google-client-id".

Definition startup_github (cfg : Config.t) : string :=
  startup_status (Config.github_clientID cfg) "your-github-client-id".

(** The same line in the earlier version of the file (part_000:357-358):
    [clientID ? 'Configurato' : 'Non configurato']. *)
Definition startup_status_earlier (clientID : string) : string :=
  if negb (String.eqb clientID "") then "Configurato" else "Non configurato".

(** *** Routes (server.js:524-675) *)

(** The object built by the [/api/profile] handler. *)
Module UserProfile.
Record t : Type := mk {
  id : string;
  name : JsVal;
  email : JsVal;
  avatar : JsVal;
  provider : string;
  createdAt : Z;
  lastLogin : Z
}.
End UserProfile.

(** The payload given to [jwt.sign] by the two OAuth callback routes. *)
Module TokenPayload.
Record t : Type := mk {
  id : string;
  email : JsVal;
  name : JsVal;
  provider : string
}.
End TokenPayload.

(** What a route sends back. *)
Inductive Reply : Type :=
  | ReplyError (status : Z) (error : string)
  | ReplyProfile (userProfile : UserProfile.t)
  | ReplyToken (token : JsVal) (expiresIn : string)
  | ReplyProtected (message : string) (user : Jwt.Claims) (timestamp : Z)
  | ReplyRedirect (location : string).

(** The parts of a request that the session routes read: what passport left
    in [req.isAuthenticated()] and [req.user], and [req.session.jwtToken]. *)
Record SessionRequest : Type := mkSessionRequest {
  isAuthenticated : bool;
  req_user : option User.t;
  session_jwtToken : JsVal
}.

Inductive SessionOutcome : Type :=
  | SessionNext
  | SessionRespond (status : Z) (error : string).

(** server.js:166-171 *)
Definition ensureAuthenticated (req : SessionRequest) : SessionOutcome :=
  if isAuthenticated req then SessionNext
  else SessionRespond 401 "Accesso non autorizzato".

(** server.js:644-649, [GET /api/token]. *)
Definition api_token (cfg : Config.t) (req : SessionRequest) : Reply :=
  match ensureAuthenticated req with
  | SessionRespond status error => ReplyError status error
  | SessionNext => ReplyToken (session_jwtToken req) (Config.jwt_expiresIn cfg)
  end.

Section TokenRoutes.

Variable jwt_verify : option string → string → Jwt.Verdict.

(** [jwt.sign(payload, secret, { expiresIn })] of the jsonwebtoken package. *)
Variable jwt_sign : TokenPayload.t → string → string → string.

Variable cfg : Config.t.

(** server.js:652-658, [GET /api/protected]; [now] is the reading of
    [new Date()] that the handler formats. *)
Definition api_protected (now : Z) (authHeader : option string) : Reply :=
  match authenticateJWT jwt_verify (Config.jwt_secret cfg) authHeader with
  | Respond status error => ReplyError status error
  | Next user =>
      ReplyProtected "Accesso autorizzato alla risorsa protetta" user now
  end.

(** server.js:524-544 and 548-566, the handler of the two OAuth callback
    routes: it runs with [req.user] set to the identity that the verify
    callback returned, and yields the new [req.session.jwtToken] and the
    reply. *)
Definition oauth_callback_route (user : User.t) : JsVal * Reply :=
  let token :=
    jwt_sign
      (TokenPayload.mk (User.id user) (User.email user) (User.name user)
                       (User.provider user))
      (Config.jwt_secret cfg) (Config.jwt_expiresIn cfg) in
  (JStr token, ReplyRedirect "/").

End TokenRoutes.

(** *** Vocabulary for the added statements *)

(** The properties of a stored identity that no callback assigns after its
    creation. *)
Definition frozen_fields (u : User.t) :=
  (User.id u, User.googleId u, User.githubId u, User.email u, User.name u,
   User.avatar u, User.provider u, User.refreshToken u, User.createdAt u).

(** A token library that issues one fixed token and accepts it. *)
Definition sample_sign (payload : TokenPayload.t) (secret expiresIn : string)
  : string := "good.token.sig".

(** * Properties *)

(** ** The code on small inputs *)

Example first_google_login :
  reconcile sample_clock sample_uuid ann_google_call initial
  = (Normal (done None (Some
       (User.mk "uuid-" (Some "g-42") None (JStr "a@x.com") (JStr "Ann")
                (JStr "ann.png") "google" "ya29.first" JUndefined
                1700000000000 1700000000001))),
     mkWorld
       [("uuid-",
         User.mk "uuid-" (Some "g-42") None (JStr "a@x.com") (JStr "Ann")
                 (JStr "ann.png") "google" "ya29.first" JUndefined
                 1700000000000 1700000000001)]
       2 1).
Proof. reflexivity. Qed.

Example three_logins_two_entries :
  JsMap.keys
    (users (run_calls sample_clock sample_uuid
              [ann_google_call; ann_github_call; ann_google_again] initial))
  = ["uuid-"; "uuid-i"].
Proof. reflexivity. Qed.

Example github_login_without_email :
  (reconcile sample_clock sample_uuid ann_github_call initial).1
  = Normal (done None (Some
      (User.mk "uuid-" None (Some "g-42") JNull (JStr "ann")
               (JStr "ann-gh.png") "github" "gho_first" JUndefined
               1700000000000 1700000000001))).
Proof. reflexivity. Qed.

Example split_like_js :
  split " " "Bearer abc" = ["Bearer"; "abc"] ∧
  split " " "a  b " = ["a"; ""; "b"; ""] ∧
  split " " " tok" = [""; "tok"] ∧
  split " " "" = [""].
Proof. by split_and!. Qed.

Example bearer_header_accepted :
  authenticateJWT sample_verify "your-jwt-secret-key" (Some "Bearer good.token.sig")
  = Next sample_claims.
Proof. reflexivity. Qed.

(** ** The Map *)

Section JsMapFacts.
Implicit Types (m : JsMap.t) (k : string) (v u : User.t).

Lemma get_set_eq k v m : JsMap.get k (JsMap.set k v m) = Some v.
Proof.
  induction m as [|[k' v'] m IH]; simpl.
  - by rewrite decide_True.
  - destruct (decide (k' = k)) as [->|Hne]; simpl.
    + by rewrite decide_True.
    + by rewrite decide_False.
Qed.

Lemma get_set_ne k k' v m :
  k ≠ k' → JsMap.get k' (JsMap.set k v m) = JsMap.get k' m.
Proof.
  intros Hne. induction m as [|[k0 v0] m IH]; simpl.
  - by rewrite decide_False.
  - destruct (decide (k0 = k)) as [->|Hk0]; simpl.
    + by rewrite !decide_False.
    + destruct (decide (k0 = k')); [done|apply IH].
Qed.

Lemma get_delete k m : JsMap.get k (JsMap.delete k m) = None.
Proof.
  unfold JsMap.delete. induction m as [|[k' v'] m IH]; [done|].
  rewrite filter_cons. simpl. destruct (decide (k' ≠ k)) as [Hne|Heq]; simpl.
  - by rewrite decide_False.
  - apply IH.
Qed.

Lemma get_None_not_key k m : JsMap.get k m = None ↔ k ∉ JsMap.keys m.
Proof.
  unfold JsMap.keys. induction m as [|[k' v'] m IH]; simpl.
  - split; [intros _; apply not_elem_of_nil|done].
  - rewrite not_elem_of_cons. destruct (decide (k' = k)) as [->|Hne].
    + split; [done|intros [? _]; done].
    + rewrite IH. split; [intros ?; split; [congruence|done]|intros [_ ?]; done].
Qed.

Lemma elem_get k v m : NoDup (JsMap.keys m) → (k, v) ∈ m → JsMap.get k m = Some v.
Proof.
  unfold JsMap.keys. induction m as [|[k' v'] m IH]; simpl.
  - intros _ H. by apply elem_of_nil in H.
  - rewrite NoDup_cons. intros [Hk' Hnd]. rewrite elem_of_cons.
    intros [[= -> ->]|Hin].
    + by rewrite decide_True.
    + destruct (decide (k' = k)) as [->|Hne]; [|by apply IH].
      exfalso. apply Hk'. apply list_elem_of_fmap. by exists (k, v).
Qed.

(** Writing a key leaves every other entry where and as it was, and either
    replaces one entry or adds one at the end. *)
Lemma set_shape k v m :
  (∃ m1 v0 m2, m = m1 ++ (k, v0) :: m2 ∧ (k ∉ JsMap.keys m1) ∧
               JsMap.set k v m = m1 ++ (k, v) :: m2)
  ∨ ((k ∉ JsMap.keys m) ∧ JsMap.set k v m = m ++ [(k, v)]).
Proof.
  unfold JsMap.keys. induction m as [|[k' v'] m IH]; simpl.
  - right. split; [apply not_elem_of_nil|done].
  - destruct (decide (k' = k)) as [->|Hne].
    + left. exists [], v', m. split_and!; [done|apply not_elem_of_nil|done].
    + destruct IH as [(m1 & v0 & m2 & -> & Hk & ->)|[Hk ->]].
      * left. exists ((k', v') :: m1), v0, m2. split_and!; [done| |done].
        simpl. rewrite not_elem_of_cons. split; [congruence|done].
      * right. split; [|done]. rewrite not_elem_of_cons. split; [congruence|done].
Qed.

Lemma keys_set_NoDup k v m :
  NoDup (JsMap.keys m) → NoDup (JsMap.keys (JsMap.set k v m)).
Proof.
  unfold JsMap.keys.
  destruct (set_shape k v m) as [(m1 & v0 & m2 & -> & Hk & ->)|[Hk ->]].
  - by rewrite !fmap_app, !fmap_cons.
  - rewrite fmap_app. simpl. intros Hnd. apply NoDup_app. split_and!; [done| |].
    + intros x Hx. rewrite list_elem_of_singleton. intros ->. by apply Hk.
    + apply NoDup_singleton.
Qed.

Lemma keys_alter (f : User.t → User.t) i m :
  JsMap.keys (alter (λ kv, (kv.1, f kv.2)) i m) = JsMap.keys m.
Proof.
  unfold JsMap.keys. revert i. induction m as [|[k' v'] m IH]; intros [|i]; simpl; try done.
  f_equal. apply IH.
Qed.

Lemma values_alter (f : User.t → User.t) i m :
  JsMap.values (alter (λ kv, (kv.1, f kv.2)) i m) = alter f i (JsMap.values m).
Proof.
  unfold JsMap.values. revert i. induction m as [|[k' v'] m IH]; intros [|i]; simpl; try done.
  f_equal. apply IH.
Qed.

Lemma values_lookup m i : JsMap.values m !! i = snd <$> m !! i.
Proof. unfold JsMap.values. apply list_lookup_fmap. Qed.

End JsMapFacts.

(** ** What one callback does *)

Section ReconcileFacts.
Variable clock : nat → Z.
Variable uuid_source : nat → string.

Abbreviation reconcile := (reconcile clock uuid_source).
Abbreviation created := (created clock uuid_source).
Abbreviation touched := (touched clock).

Lemma reconcile_known c w i u :
  lookup_subject c w = Some (i, u) →
  reconcile c w =
    (Normal (done None (Some (touched c w u))),
     mkWorld (alter (λ kv, (kv.1, touched c w kv.2)) i (users w))
             (S (dates w)) (uuids w)).
Proof.
  unfold lookup_subject. intros Hfind.
  assert (∃ k, users w !! i = Some (k, u)) as [k Hk].
  { apply list_find_Some in Hfind as (Hi & _ & _).
    rewrite values_lookup in Hi. destruct (users w !! i) as [[k u']|]; simplify_eq/=.
    by exists k. }
  destruct c as [[] a r profile]; simpl in *;
    unfold reconcile, googleVerify, githubVerify, try_catch, bind, users_find,
      new_Date, assign, deref, ret; simpl;
    rewrite Hfind; simpl;
    rewrite !list_alter_alter_eq, list_lookup_alter_eq, Hk; done.
Qed.

Lemma reconcile_new c w :
  lookup_subject c w = None →
  creatable (call_provider c) (call_profile c) = true →
  reconcile c w =
    (Normal (done None (Some (created c w))),
     mkWorld (JsMap.set (uuid_source (uuids w)) (created c w) (users w))
             (S (S (dates w))) (S (uuids w))).
Proof.
  unfold lookup_subject. intros Hfind Hc.
  destruct c as [[] a r [pid dn un [[|e es]|] [[|ph phs]|]]]; simpl in *; try done;
    unfold reconcile, googleVerify, githubVerify, try_catch, bind, users_find,
      new_Date, randomUUID, users_set, first_value, ret, created; simpl;
    rewrite Hfind; simpl; done.
Qed.

Lemma reconcile_new_fails c w :
  lookup_subject c w = None →
  creatable (call_provider c) (call_profile c) = false →
  ∃ e, reconcile c w =
    (Normal (done (Some e) None),
     mkWorld (users w) (dates w) (S (uuids w))).
Proof.
  unfold lookup_subject. intros Hfind Hc.
  destruct c as [[] a r [pid dn un [[|e es]|] [[|ph phs]|]]]; simpl in *; try done;
    unfold reconcile, googleVerify, githubVerify, try_catch, bind, users_find,
      new_Date, randomUUID, users_set, first_value, ret, throw; simpl;
    rewrite Hfind; simpl; eauto.
Qed.

End ReconcileFacts.

(** ** Holders of a subject id *)

Section HolderFacts.
Implicit Types (m : JsMap.t) (p : Provider) (s k : string) (u v : User.t).

Lemma filter_alter_length {A} (P : A → Prop) `{!∀ x, Decision (P x)}
    (f : A → A) (i : nat) (l : list A) :
  (∀ x, P (f x) ↔ P x) →
  length (filter P (alter f i l)) = length (filter P l).
Proof.
  intros Hf. revert i. induction l as [|x l IH]; intros [|i]; simpl; try done.
  - rewrite !filter_cons.
    destruct (decide (P (f x))) as [H1|H1], (decide (P x)) as [H2|H2];
      simpl; try done.
    + exfalso. by apply H2, Hf.
    + exfalso. by apply H1, Hf.
  - rewrite !filter_cons. specialize (IH i).
    destruct (decide (P x)); simpl; [f_equal|]; exact IH.
Qed.

Lemma holders_alter p s (f : User.t → User.t) i m :
  (∀ u, subject_of p (f u) = subject_of p u) →
  length (holders p s (alter (λ kv, (kv.1, f kv.2)) i m)) = length (holders p s m).
Proof.
  intros Hf. unfold holders. rewrite values_alter.
  apply filter_alter_length. intros u. by rewrite Hf.
Qed.

Lemma holders_set_le p s k v m :
  length (holders p s (JsMap.set k v m))
  ≤ length (holders p s m) + length (holders p s [(k, v)]).
Proof.
  unfold holders, JsMap.values.
  destruct (set_shape k v m) as [(m1 & v0 & m2 & -> & _ & ->)|[_ ->]].
  - rewrite !fmap_app, !fmap_cons, !filter_app, !length_app. simpl.
    rewrite !filter_cons, ?filter_nil.
    repeat case_decide; simpl; lia.
  - rewrite fmap_app, filter_app, length_app. done.
Qed.

Lemma holders_set_new p s k v m :
  holders p s m = [] → subject_of p v = Some s →
  holders p s (JsMap.set k v m) = [v].
Proof.
  unfold holders, JsMap.values. intros Hnone Hv.
  destruct (set_shape k v m) as [(m1 & v0 & m2 & -> & _ & ->)|[_ ->]].
  - rewrite fmap_app, fmap_cons, filter_app in Hnone.
    apply app_eq_nil in Hnone as [H1 H2]. simpl in H2.
    rewrite filter_cons in H2. case_decide; [done|].
    rewrite fmap_app, fmap_cons, filter_app, H1. simpl.
    rewrite filter_cons, decide_True, H2 by done. done.
  - rewrite fmap_app, filter_app, Hnone. simpl.
    by rewrite filter_cons, decide_True, filter_nil.
Qed.

Lemma holders_nil_find p s m :
  holders p s m = [] ↔
  list_find (λ u, subject_of p u = Some s) (JsMap.values m) = None.
Proof.
  unfold holders. rewrite list_find_None, Forall_forall. split.
  - intros Hnil u Hu HP.
    by apply (filter_nil_not_elem_of _ _ u Hnil HP).
  - intros Hall. destruct (filter _ _) as [|u l] eqn:Hf; [done|].
    assert (u ∈ filter (λ u, subject_of p u = Some s) (JsMap.values m)) as Hin
      by (rewrite Hf; apply list_elem_of_here).
    apply list_elem_of_filter in Hin as [HP Hin]. by destruct (Hall u Hin).
Qed.

Lemma find_in_holders p s m i u :
  list_find (λ u, subject_of p u = Some s) (JsMap.values m) = Some (i, u) →
  u ∈ holders p s m.
Proof.
  intros (Hi & HP & _)%list_find_Some. unfold holders.
  apply list_elem_of_filter. split; [done|]. by eapply list_elem_of_lookup_2.
Qed.

Lemma holder_found p s m u :
  u ∈ holders p s m →
  ∃ i u', list_find (λ u, subject_of p u = Some s) (JsMap.values m) = Some (i, u').
Proof.
  unfold holders. intros [HP Hin]%list_elem_of_filter.
  destruct (list_find_elem_of (λ u, subject_of p u = Some s) _ u Hin HP)
    as [[i u'] Hf].
  by exists i, u'.
Qed.

End HolderFacts.

(** ** Invariants of the store *)

Section Invariants.
Variable clock : nat → Z.
Variable uuid_source : nat → string.

Abbreviation reconcile := (reconcile clock uuid_source).
Abbreviation run_calls := (run_calls clock uuid_source).
Abbreviation created := (created clock uuid_source).
Abbreviation touched := (touched clock).

(** The three ways a callback can go. *)
Lemma reconcile_cases c w :
  (∃ i u, lookup_subject c w = Some (i, u) ∧
          reconcile c w =
            (Normal (done None (Some (touched c w u))),
             mkWorld (alter (λ kv, (kv.1, touched c w kv.2)) i (users w))
                     (S (dates w)) (uuids w)))
  ∨ (lookup_subject c w = None ∧
     creatable (call_provider c) (call_profile c) = true ∧
     reconcile c w =
       (Normal (done None (Some (created c w))),
        mkWorld (JsMap.set (uuid_source (uuids w)) (created c w) (users w))
                (S (S (dates w))) (S (uuids w))))
  ∨ (lookup_subject c w = None ∧
     creatable (call_provider c) (call_profile c) = false ∧
     ∃ e, reconcile c w =
            (Normal (done (Some e) None),
             mkWorld (users w) (dates w) (S (uuids w)))).
Proof.
  destruct (lookup_subject c w) as [[i u]|] eqn:Hfind.
  - left. exists i, u. split; [done|]. by apply reconcile_known.
  - right. destruct (creatable (call_provider c) (call_profile c)) eqn:Hc.
    + left. split_and!; [done..|]. by apply reconcile_new.
    + right. split_and!; [done..|]. by apply reconcile_new_fails.
Qed.

(** A callback returns an identity exactly when the subject is known or the
    creation branch can read the profile. *)
Lemma reconcile_returns_identity c w :
  (∃ u w', reconcile c w = (Normal (done None (Some u)), w'))
  ↔ is_Some (lookup_subject c w)
    ∨ creatable (call_provider c) (call_profile c) = true.
Proof.
  destruct (reconcile_cases c w)
    as [(i & u & Hfind & ->)|[(Hnone & Hc & ->)|(Hnone & Hc & e & ->)]].
  - split; [intros _; left; by rewrite Hfind|eauto].
  - split; [by right|eauto].
  - split.
    + intros (u & w' & [=]).
    + rewrite Hnone, Hc. intros [[? [=]]|[=]].
Qed.

Lemma id_touched c w u : User.id (touched c w u) = User.id u.
Proof. done. Qed.

Lemma subject_touched p c w u :
  subject_of p (touched c w u) = subject_of p u.
Proof. by destruct p. Qed.

Lemma subject_created p c w :
  subject_of p (created c w) =
    if decide (p = call_provider c) then Some (Profile.id (call_profile c))
    else None.
Proof. destruct c as [[] a r profile], p; by simpl. Qed.

Lemma id_created c w : User.id (created c w) = uuid_source (uuids w).
Proof. by destruct c as [[] a r profile]. Qed.

Lemma lastLogin_created c w :
  User.lastLogin (created c w) = clock (S (dates w)).
Proof. by destruct c as [[] a r profile]. Qed.

Lemma elem_of_set k v k' u (m : JsMap.t) :
  (k', u) ∈ JsMap.set k v m → (k', u) = (k, v) ∨ (k', u) ∈ m.
Proof.
  destruct (set_shape k v m) as [(m1 & v0 & m2 & Hm & _ & Hset)|[_ Hset]];
    rewrite Hset; [rewrite Hm|]; rewrite !elem_of_app, !elem_of_cons.
  - tauto.
  - rewrite elem_of_nil. tauto.
Qed.

Lemma elem_of_alter_snd (f : User.t → User.t) i k u (m : JsMap.t) :
  (k, u) ∈ alter (λ kv, (kv.1, f kv.2)) i m →
  ∃ u0, (k, u0) ∈ m ∧ (u = u0 ∨ u = f u0).
Proof.
  intros [j Hj]%list_elem_of_lookup_1. rewrite list_lookup_alter in Hj.
  case_decide; subst.
  - destruct (m !! j) as [[k0 u0]|] eqn:Hm; simplify_eq/=.
    exists u0. split; [by eapply list_elem_of_lookup_2|by right].
  - exists u. split; [by eapply list_elem_of_lookup_2|by left].
Qed.

Lemma store_ok_empty : store_ok JsMap.empty.
Proof.
  split.
  - apply NoDup_nil_2.
  - intros k u H. by apply elem_of_nil in H.
  - intros u H. by apply elem_of_nil in H.
Qed.

Lemma reconcile_store_ok c w :
  store_ok (users w) → store_ok (users (reconcile c w).2).
Proof.
  intros [Hk Hid Hone].
  destruct (reconcile_cases c w)
    as [(i & u & _ & ->)|[(_ & _ & ->)|(_ & _ & e & ->)]]; simpl; [| |done].
  - split.
    + by rewrite keys_alter.
    + intros k u' (u0 & Hin & [->| ->])%elem_of_alter_snd;
        rewrite ?id_touched; by apply Hid.
    + intros u'. unfold JsMap.values.
      intros ([k u''] & -> & (u0 & Hin & [->| ->])%elem_of_alter_snd)%list_elem_of_fmap;
        simpl; apply (Hone u0), list_elem_of_fmap; by exists (k, u0).
  - split.
    + by apply keys_set_NoDup.
    + intros k u' [[= -> ->]|Hin]%elem_of_set; [apply id_created|by apply Hid].
    + intros u'. unfold JsMap.values.
      intros ([k u''] & -> & [[= -> ->]|Hin]%elem_of_set)%list_elem_of_fmap; simpl.
      * destruct c as [[] a r profile]; simpl; auto.
      * apply Hone, list_elem_of_fmap. by exists (k, u'').
Qed.

Lemma reconcile_unique c w :
  (∀ p s, length (holders p s (users w)) ≤ 1) →
  ∀ p s, length (holders p s (users (reconcile c w).2)) ≤ 1.
Proof.
  intros Huniq p s.
  destruct (reconcile_cases c w)
    as [(i & u & _ & ->)|[(Hnone & _ & ->)|(_ & _ & e & ->)]]; simpl; [| |done].
  - rewrite holders_alter; [done|]. intros u'. apply subject_touched.
  - etrans; [apply holders_set_le|].
    unfold holders at 2. simpl. rewrite filter_cons, filter_nil.
    rewrite subject_created.
    destruct (decide (p = call_provider c)) as [->|Hp].
    + destruct (decide (Some (Profile.id (call_profile c)) = Some s)) as [[= <-]|Hs];
        simpl; [|specialize (Huniq (call_provider c) s); lia].
      apply holders_nil_find in Hnone. rewrite Hnone. simpl. lia.
    + rewrite decide_False by done. simpl. specialize (Huniq p s). lia.
Qed.

Lemma run_calls_invariant (P : World → Prop) cs w :
  (∀ c w, P w → P (reconcile c w).2) → P w → P (run_calls cs w).
Proof.
  intros Hstep. revert w. induction cs as [|c cs IH]; intros w Hw; simpl; [done|].
  by apply IH, Hstep.
Qed.

Lemma reachable_store_ok w :
  reachable clock uuid_source w → store_ok (users w).
Proof.
  intros [cs ->].
  apply (run_calls_invariant (λ w, store_ok (users w)));
    [apply reconcile_store_ok|apply store_ok_empty].
Qed.

Lemma reachable_unique w :
  reachable clock uuid_source w → ∀ p s, length (holders p s (users w)) ≤ 1.
Proof.
  intros [cs ->].
  apply (run_calls_invariant (λ w, ∀ p s, length (holders p s (users w)) ≤ 1));
    [apply reconcile_unique|]. intros p s. simpl. lia.
Qed.

End Invariants.

(** ** Reconciliation, one call after another *)

Section Sequential.
Variable clock : nat → Z.
Variable uuid_source : nat → string.

Abbreviation reconcile := (reconcile clock uuid_source).
Abbreviation run_calls := (run_calls clock uuid_source).
Abbreviation created := (created clock uuid_source).
Abbreviation touched := (touched clock).

Lemma list_find_alter {A} (P : A → Prop) `{!∀ x, Decision (P x)}
    (f : A → A) (i : nat) (l : list A) (x : A) :
  (∀ y, P (f y) ↔ P y) →
  list_find P l = Some (i, x) → list_find P (alter f i l) = Some (i, f x).
Proof.
  intros Hf (Hi & HP & Hlt)%list_find_Some. apply list_find_Some. split_and!.
  - by rewrite list_lookup_alter_eq, Hi.
  - by apply Hf.
  - intros j y Hj Hji. rewrite list_lookup_alter_ne in Hj by lia. by eapply Hlt.
Qed.

(** After a callback that found its subject, the same subject is found at
    the same place. *)
Lemma lookup_after_known c c' w i u :
  call_provider c' = call_provider c →
  Profile.id (call_profile c') = Profile.id (call_profile c) →
  lookup_subject c w = Some (i, u) →
  lookup_subject c' (reconcile c w).2 = Some (i, touched c w u).
Proof.
  intros Hp Hs Hfind. rewrite (reconcile_known _ _ _ _ _ _ Hfind). simpl.
  unfold lookup_subject in *. simpl. rewrite Hp, Hs, values_alter.
  apply (list_find_alter _ (touched c w)); [|done].
  intros y. by rewrite subject_touched.
Qed.

(** After a callback that created an identity, the subject is found and it
    is that identity. *)
Lemma lookup_after_new c c' w :
  call_provider c' = call_provider c →
  Profile.id (call_profile c') = Profile.id (call_profile c) →
  lookup_subject c w = None →
  creatable (call_provider c) (call_profile c) = true →
  ∃ i, lookup_subject c' (reconcile c w).2 = Some (i, created c w).
Proof.
  intros Hp Hs Hnone Hc. rewrite (reconcile_new _ _ _ _ Hnone Hc). simpl.
  unfold lookup_subject in *. simpl. rewrite Hp, Hs.
  apply holders_nil_find in Hnone.
  pose proof (holders_set_new _ _ (uuid_source (uuids w)) (created c w) _ Hnone)
    as Hone.
  rewrite subject_created, decide_True in Hone by done. specialize (Hone eq_refl).
  destruct (holder_found (call_provider c) (Profile.id (call_profile c))
              (JsMap.set (uuid_source (uuids w)) (created c w) (users w))
              (created c w)) as (i & u' & Hfind).
  { rewrite Hone. apply list_elem_of_here. }
  pose proof (find_in_holders _ _ _ _ _ Hfind) as Hin.
  rewrite Hone in Hin. apply list_elem_of_singleton in Hin as ->. by exists i.
Qed.

End Sequential.

(** ** Uniqueness of provider subjects *)

(** At most one holder, read on positions of the Map: two entries that hold
    the same subject id for the same provider are one entry. *)
Lemma holders_same_entry (m : JsMap.t) (p : Provider) (s : string)
    (i j : nat) (A B : User.t) :
  length (holders p s m) ≤ 1 →
  JsMap.values m !! i = Some A → JsMap.values m !! j = Some B →
  subject_of p A = Some s → subject_of p B = Some s → i = j.
Proof.
  unfold holders. generalize (JsMap.values m). intros l. revert i j.
  induction l as [|x l IH]; intros i j Hlen Hi Hj HA HB; [done|].
  rewrite filter_cons in Hlen.
  assert (∀ k y, l !! k = Some y → subject_of p y = Some s →
                 1 ≤ length (filter (λ u, subject_of p u = Some s) l)) as Hpos.
  { intros k y Hk Hy.
    assert (y ∈ filter (λ u, subject_of p u = Some s) l) as Hin.
    { apply list_elem_of_filter. split; [done|]. by eapply list_elem_of_lookup_2. }
    destruct (filter _ l); [by apply elem_of_nil in Hin|simpl; lia]. }
  destruct i as [|i], j as [|j]; simplify_eq/=; [done| | |].
  - rewrite decide_True in Hlen by done. simpl in Hlen.
    pose proof (Hpos _ _ Hj HB). lia.
  - rewrite decide_True in Hlen by done. simpl in Hlen.
    pose proof (Hpos _ _ Hi HA). lia.
  - f_equal. apply IH; try done. case_decide; simpl in Hlen; lia.
Qed.

(** C1.  Whatever verify callbacks (Google or GitHub, with any tokens and
    profiles) have run one after another since the Map was created, and
    whatever the clock and the identifier generator returned, for every
    subject id [s] at most one stored identity has [googleId = s] and at most
    one has [githubId = s]; said on the entries of the Map, two entries at
    different positions never hold the same subject id for the same
    provider. *)
Theorem provider_subject_unique (clock : nat → Z) (uuid_source : nat → string)
    (cs : list Call) (s : string) :
  let stored := JsMap.values (users (run_calls clock uuid_source cs initial)) in
  length (filter (λ u, User.googleId u = Some s) stored) ≤ 1 ∧
  length (filter (λ u, User.githubId u = Some s) stored) ≤ 1 ∧
  ∀ (p : Provider) (i j : nat) (A B : User.t),
    stored !! i = Some A → stored !! j = Some B → i ≠ j →
    ¬ (subject_of p A = Some s ∧ subject_of p B = Some s).
Proof.
  simpl.
  pose proof (reachable_unique clock uuid_source _ (ex_intro _ cs eq_refl)) as Huniq.
  split_and!.
  - apply (Huniq google s).
  - apply (Huniq github s).
  - intros p i j A B Hi Hj Hne [HA HB]. apply Hne.
    by eapply (holders_same_entry _ p s), HB.
Qed.

(** ** Reconciling the same subject twice *)

(** A new GitHub subject whose profile has no [photos], reconciled twice:
    both callbacks hand the TypeError to [done], neither yields an identity
    and nothing is stored; written against C2, which says that for every
    profile two calls in sequence yield an identity with the same [id]. *)
Lemma reconcile_twice_without_photos :
  let c := mkCall github "gho_x" JUndefined bea_github_no_photo in
  let first := reconcile sample_clock sample_uuid c initial in
  let second := reconcile sample_clock sample_uuid c first.2 in
  first.1
    = Normal (done (Some (TypeError "Cannot read properties of undefined (reading '0')"))
                   None)
  ∧ second.1
    = Normal (done (Some (TypeError "Cannot read properties of undefined (reading '0')"))
                   None)
  ∧ users second.2 = [].
Proof. by split_and!. Qed.

(** C2, as the code has it.  When a callback for a provider and subject id
    has returned an identity, the next callback for the same provider and
    subject id (with the same or another profile and tokens) returns an
    identity with the same [id] and adds no entry to the Map; its [lastLogin]
    is not earlier than the one returned first, as long as the clock does not
    run backwards. *)
Theorem reconcile_twice_same_id (clock : nat → Z) (uuid_source : nat → string)
    (c c' : Call) (w w1 : World) (u1 : User.t) :
  call_provider c' = call_provider c →
  Profile.id (call_profile c') = Profile.id (call_profile c) →
  reconcile clock uuid_source c w = (Normal (done None (Some u1)), w1) →
  ∃ u2 w2,
    reconcile clock uuid_source c' w1 = (Normal (done None (Some u2)), w2) ∧
    User.id u2 = User.id u1 ∧
    JsMap.keys (users w2) = JsMap.keys (users w1) ∧
    ((∀ i j, i ≤ j → (clock i ≤ clock j)%Z) →
     (User.lastLogin u1 ≤ User.lastLogin u2)%Z).
Proof.
  intros Hp Hs Hfirst.
  destruct (reconcile_cases clock uuid_source c w)
    as [(i & u & Hfind & Hrun)|[(Hnone & Hc & Hrun)|(_ & _ & e & Hrun)]];
    rewrite Hrun in Hfirst; simplify_eq.
  - pose proof (lookup_after_known clock uuid_source c c' w i u Hp Hs Hfind) as Hnext.
    rewrite Hrun in Hnext. simpl in Hnext.
    eexists _, _. split; [by apply reconcile_known|]. split; [done|].
    split; [apply keys_alter|].
    intros Hmono. simpl. apply Hmono. lia.
  - destruct (lookup_after_new clock uuid_source c c' w Hp Hs Hnone Hc) as [i Hnext].
    rewrite Hrun in Hnext. simpl in Hnext.
    eexists _, _. split; [by apply reconcile_known|]. split; [done|].
    split; [apply keys_alter|].
    intros Hmono. rewrite lastLogin_created. simpl. apply Hmono. lia.
Qed.

Lemma sample_clock_monotone (i j : nat) :
  i ≤ j → (sample_clock i ≤ sample_clock j)%Z.
Proof. unfold sample_clock. lia. Qed.

Lemma reconcile_twice_same_id_witness :
  ∃ u2 w2,
    reconcile sample_clock sample_uuid ann_google_call
        (reconcile sample_clock sample_uuid ann_google_call initial).2
      = (Normal (done None (Some u2)), w2) ∧
    User.id u2 = "uuid-" ∧
    (1700000000001 ≤ User.lastLogin u2)%Z.
Proof.
  destruct (reconcile_twice_same_id sample_clock sample_uuid
              ann_google_call ann_google_call initial _ _
              eq_refl eq_refl eq_refl) as (u2 & w2 & Hrun & Hid & _ & Hlast).
  exists u2, w2. split; [exact Hrun|]. split; [exact Hid|].
  exact (Hlast sample_clock_monotone).
Defined.

(** ** Profiles with missing fields *)




(** ** A later login of a known subject *)

(** A second Google login whose profile carries a new name, address and
    picture returns the identity with the old ones; written against C5, which
    says that non-empty values refresh the stored fields. *)
Lemma known_subject_not_refreshed :
  ∃ u w2,
    reconcile sample_clock sample_uuid ann_google_again
        (reconcile sample_clock sample_uuid ann_google_call initial).2
      = (Normal (done None (Some u)), w2) ∧
    User.name u = JStr "Ann" ∧
    User.email u = JStr "a@x.com" ∧
    User.avatar u = JStr "ann.png" ∧
    Profile.displayName (call_profile ann_google_again) = JStr "Ann Lee".
Proof. eexists _, _. split; [reflexivity|]. by split_and!. Qed.

(** C5, as the code has it.  A callback for a subject that is already stored
    keeps the stored [email], [name] and [avatar] whatever the new profile
    carries, empty or not; the identity it returns differs from the stored
    one in [lastLogin] and [accessToken] only, and it is what the Map then
    holds at the same place. *)
Theorem known_subject_fields_kept (clock : nat → Z) (uuid_source : nat → string)
    (c : Call) (w : World) (i : nat) (stored : User.t) :
  lookup_subject c w = Some (i, stored) →
  ∃ u w',
    reconcile clock uuid_source c w = (Normal (done None (Some u)), w') ∧
    User.email u = User.email stored ∧
    User.name u = User.name stored ∧
    User.avatar u = User.avatar stored ∧
    u = User.set_accessToken (call_accessToken c)
          (User.set_lastLogin (clock (dates w)) stored) ∧
    JsMap.values (users w') !! i = Some u.
Proof.
  intros Hfind. eexists _, _. split; [by apply reconcile_known|].
  split_and!; try done. simpl.
  apply list_find_Some in Hfind as (Hi & _ & _).
  rewrite values_alter, list_lookup_alter_eq, Hi. done.
Qed.

Lemma known_subject_fields_kept_witness :
  ∃ u w',
    reconcile sample_clock sample_uuid
        (mkCall google "ya29.third" JUndefined
           (Profile.mk "g-42" (JStr "") JUndefined None None))
        (reconcile sample_clock sample_uuid ann_google_call initial).2
      = (Normal (done None (Some u)), w') ∧
    User.name u = JStr "Ann".
Proof.
  destruct (known_subject_fields_kept sample_clock sample_uuid
              (mkCall google "ya29.third" JUndefined
                 (Profile.mk "g-42" (JStr "") JUndefined None None))
              (reconcile sample_clock sample_uuid ann_google_call initial).2
              0 _ eq_refl) as (u & w' & Hrun & _ & Hname & _).
  exists u, w'. split; [exact Hrun|exact Hname].
Defined.

(** ** The session codec *)

Lemma stored_under_id (m : JsMap.t) (u : User.t) :
  store_ok m → u ∈ JsMap.values m → JsMap.get (User.id u) m = Some u.
Proof.
  intros [Hk Hid _]. unfold JsMap.values.
  intros ([k u'] & -> & Hin)%list_elem_of_fmap. simpl.
  rewrite (Hid _ _ Hin). by apply elem_get.
Qed.

(** C7.  For an identity held by the Map after any sequence of callbacks,
    [serializeUser] yields its [id] and [deserializeUser] of that [id] yields
    the identity itself, with no error.  For an [id] that the Map does not
    hold, in particular one whose entry was deleted, [deserializeUser]
    completes normally with a null error and an undefined user. *)
Theorem session_codec_roundtrip (clock : nat → Z) (uuid_source : nat → string)
    (w : World) (identity : User.t) (id : string) :
  (reachable clock uuid_source w → identity ∈ JsMap.values (users w) →
   ∃ principal,
     serializeUser identity w = (Normal (done None (Some principal)), w) ∧
     deserializeUser principal w = (Normal (done None (Some identity)), w))
  ∧ (JsMap.get id (users w) = None →
     deserializeUser id w = (Normal (done None None), w))
  ∧ (let w' := mkWorld (JsMap.delete id (users w)) (dates w) (uuids w) in
     deserializeUser id w' = (Normal (done None None), w')).
Proof.
  split_and!.
  - intros Hreach Hin. exists (User.id identity). split; [done|].
    unfold deserializeUser.
    by rewrite (stored_under_id _ _ (reachable_store_ok _ _ _ Hreach) Hin).
  - intros Hnone. unfold deserializeUser. by rewrite Hnone.
  - simpl. unfold deserializeUser. simpl. by rewrite get_delete.
Qed.

Lemma session_codec_roundtrip_witness :
  let w := (reconcile sample_clock sample_uuid ann_google_call initial).2 in
  let ann := created sample_clock sample_uuid ann_google_call initial in
  (∃ principal,
     serializeUser ann w = (Normal (done None (Some principal)), w) ∧
     deserializeUser principal w = (Normal (done None (Some ann)), w))
  ∧ deserializeUser "uuid-i" w = (Normal (done None None), w).
Proof.
  destruct (session_codec_roundtrip sample_clock sample_uuid
              (reconcile sample_clock sample_uuid ann_google_call initial).2
              (created sample_clock sample_uuid ann_google_call initial)
              "uuid-i") as (Hround & Hgone & _).
  split.
  - apply Hround.
    + by exists [ann_google_call].
    + vm_compute. apply list_elem_of_here.
  - apply Hgone. reflexivity.
Defined.

(** ** The same subject id at two providers *)

Lemma get_alter_other (f : User.t → User.t) (i : nat) (k k' : string)
    (u : User.t) (m : JsMap.t) :
  m !! i = Some (k', u) → k' ≠ k →
  JsMap.get k (alter (λ kv, (kv.1, f kv.2)) i m) = JsMap.get k m.
Proof.
  revert i. induction m as [|[k0 v0] m IH]; intros [|i] Hi Hne; simplify_eq/=.
  - by rewrite !decide_False.
  - case_decide; [done|]. by eapply IH.
Qed.

Lemma get_alter_same (f : User.t → User.t) (i : nat) (k : string)
    (u : User.t) (m : JsMap.t) :
  NoDup (JsMap.keys m) → m !! i = Some (k, u) →
  JsMap.get k (alter (λ kv, (kv.1, f kv.2)) i m) = Some (f u).
Proof.
  intros Hnd Hi. apply elem_get; [by rewrite keys_alter|].
  apply (list_elem_of_lookup_2 _ i). by rewrite list_lookup_alter_eq, Hi.
Qed.

Section CrossProvider.
Variable clock : nat → Z.
Variable uuid_source : nat → string.

(** The identity a callback returns is in the Map under its [id] and holds
    the subject id of the call. *)
Lemma reconcile_result_stored c w w' u :
  store_ok (users w) →
  reconcile clock uuid_source c w = (Normal (done None (Some u)), w') →
  JsMap.get (User.id u) (users w') = Some u ∧
  subject_of (call_provider c) u = Some (Profile.id (call_profile c)).
Proof.
  intros [Hk Hid Hone] Hrun.
  destruct (reconcile_cases clock uuid_source c w)
    as [(i & u0 & Hfind & Hrun')|[(Hnone & Hc & Hrun')|(_ & _ & e & Hrun')]];
    rewrite Hrun' in Hrun; simplify_eq/=.
  - apply list_find_Some in Hfind as (Hi & HP & _).
    rewrite values_lookup in Hi.
    destruct (users w !! i) as [[k u']|] eqn:Hwi; simplify_eq/=.
    split; [|by destruct (call_provider c)].
    rewrite (Hid k u0) by (by eapply list_elem_of_lookup_2).
    by apply (get_alter_same (touched clock c w)).
  - split.
    + rewrite id_created. apply get_set_eq.
    + by rewrite subject_created, decide_True.
Qed.

(** A callback leaves alone the entries filed under other keys than the one
    of the identity it returns. *)
Lemma reconcile_other_kept c w w' u k v :
  store_ok (users w) →
  reconcile clock uuid_source c w = (Normal (done None (Some u)), w') →
  JsMap.get k (users w) = Some v → User.id u ≠ k →
  JsMap.get k (users w') = Some v.
Proof.
  intros [Hk Hid Hone] Hrun Hget Hne.
  destruct (reconcile_cases clock uuid_source c w)
    as [(i & u0 & Hfind & Hrun')|[(Hnone & Hc & Hrun')|(_ & _ & e & Hrun')]];
    rewrite Hrun' in Hrun; simplify_eq/=.
  - apply list_find_Some in Hfind as (Hi & HP & _).
    rewrite values_lookup in Hi.
    destruct (users w !! i) as [[k0 u']|] eqn:Hwi; simplify_eq/=.
    rewrite (Hid k0 u0) in Hne by (by eapply list_elem_of_lookup_2).
    by rewrite (get_alter_other _ _ _ _ _ _ Hwi Hne).
  - rewrite id_created in Hne. by rewrite get_set_ne.
Qed.

End CrossProvider.

(** Starting from any Map the callbacks have built, a callback of one
    provider and then a callback of the other provider with the same literal
    subject id, both returning an identity, return identities with different
    [id]s, both held by the Map, if the identifier drawn for the second one
    is not already a key. *)
Lemma distinct_ids_when_fresh (clock : nat → Z) (uuid_source : nat → string)
    (c1 c2 : Call) (w w1 w2 : World) (u1 u2 : User.t) :
  reachable clock uuid_source w →
  call_provider c1 ≠ call_provider c2 →
  Profile.id (call_profile c1) = Profile.id (call_profile c2) →
  reconcile clock uuid_source c1 w = (Normal (done None (Some u1)), w1) →
  uuid_source (uuids w1) ∉ JsMap.keys (users w1) →
  reconcile clock uuid_source c2 w1 = (Normal (done None (Some u2)), w2) →
  User.id u1 ≠ User.id u2 ∧
  JsMap.get (User.id u1) (users w2) = Some u1 ∧
  JsMap.get (User.id u2) (users w2) = Some u2.
Proof.
  intros Hreach Hp Hs Hrun1 Hfresh Hrun2.
  pose proof (reachable_store_ok _ _ _ Hreach) as Hok.
  assert (store_ok (users w1)) as Hok1.
  { pose proof (reconcile_store_ok clock uuid_source c1 w Hok) as H.
    by rewrite Hrun1 in H. }
  destruct (reconcile_result_stored _ _ _ _ _ _ Hok Hrun1) as [Hget1 Hsub1].
  destruct (reconcile_result_stored _ _ _ _ _ _ Hok1 Hrun2) as [Hget2 Hsub2].
  assert (User.id u1 ≠ User.id u2) as Hne.
  { destruct (reconcile_cases clock uuid_source c2 w1)
      as [(j & u0 & Hfind & Hrun')|[(Hnone & Hc & Hrun')|(_ & _ & e & Hrun')]];
      rewrite Hrun' in Hrun2; simplify_eq.
    - rewrite id_touched. intros Heq.
      apply list_find_Some in Hfind as (Hj & HP & _).
      apply list_elem_of_lookup_2 in Hj.
      pose proof (stored_under_id _ _ Hok1 Hj) as Hget0.
      rewrite <- Heq, Hget1 in Hget0. simplify_eq.
      destruct Hok1 as [_ _ Hone]. destruct (Hone _ Hj) as [Hg|Hg];
        destruct (call_provider c1), (call_provider c2); simpl in *; congruence.
    - rewrite id_created. intros Heq. apply Hfresh.
      apply dec_stable. intros Hnot. apply get_None_not_key in Hnot.
      rewrite <- Heq in Hnot. congruence. }
  split_and!; [done| |done].
  by eapply reconcile_other_kept.
Qed.

(** ** Callbacks in flight for one new subject *)

Lemma length_set (k : string) (v : User.t) (m : JsMap.t) :
  length (JsMap.set k v m) ≤ S (length m).
Proof.
  destruct (set_shape k v m) as [(m1 & v0 & m2 & -> & _ & ->)|[_ ->]];
    rewrite !length_app; simpl; lia.
Qed.

Section InFlight.
Variable clock : nat → Z.
Variable uuid_source : nat → string.
Variables (p : Provider) (s : string).

Abbreviation in_flight := (in_flight clock uuid_source p s).

Lemma in_flight_step cs size0 st st' :
  loop_step st st' → in_flight cs size0 st → in_flight cs size0 st'.
Proof.
  intros Hstep (Hall & Hstate).
  destruct Hstep as [tasks i piece rest w Hi]. simpl in *.
  destruct (Forall2_lookup_r _ _ _ _ _ Hall Hi)
    as (c & Hc & [Hp Hs] & [?|Heq]); [done|].
  unfold callback_task in Heq. simplify_eq.
  assert (∀ (Q : Call → Task → Prop),
            Forall2 Q cs tasks → Q c [] → Forall2 Q cs (<[i:=[]]> tasks))
    as Hins.
  { intros Q HQ Hnew. rewrite <- (list_insert_id cs i c Hc).
    by apply Forall2_insert. }
  split; simpl.
  - apply Hins; [done|]. split; [done|by left].
  - destruct Hstate as [(Hnone & Hsize & Hfull)|(Hone & Hsize & Hsome)].
    + assert (lookup_subject c w = None) as Hfind
        by (by apply holders_nil_find).
      destruct (readable (call_provider c) c) eqn:Hread.
      * right. rewrite reconcile_new by done. simpl. split_and!.
        -- rewrite (holders_set_new _ _ _ _ _ Hnone); [done|].
           by rewrite subject_created, decide_True.
        -- rewrite <- Hsize. apply length_set.
        -- apply Exists_exists. exists c. split; [|done].
           by eapply list_elem_of_lookup_2.
      * left. destruct (reconcile_new_fails clock uuid_source c w Hfind Hread)
          as [e ->]. simpl. split_and!; [done..|].
        apply Hins; [done|]. congruence.
    + right.
      destruct (holders (call_provider c) (Profile.id (call_profile c)) (users w))
        as [|u0 l] eqn:Hh; [done|].
      destruct (holder_found (call_provider c) (Profile.id (call_profile c))
                  (users w) u0) as (j & u' & Hfind).
      { rewrite Hh. apply list_elem_of_here. }
      rewrite (reconcile_known _ _ _ _ _ _ Hfind). simpl. split_and!; [| |done].
      * rewrite holders_alter; [by rewrite Hh|]. intros u''. apply subject_touched.
      * by rewrite length_alter.
Qed.

Lemma in_flight_run cs size0 st st' :
  rtc loop_step st st' → in_flight cs size0 st → in_flight cs size0 st'.
Proof. induction 1; eauto using in_flight_step. Qed.

End InFlight.

(** The event loop can always run every task to its end. *)
Lemma loop_step_later (t : Task) (st st' : list Task * World) :
  loop_step st st' → loop_step (t :: st.1, st.2) (t :: st'.1, st'.2).
Proof.
  intros [tasks i piece rest w Hi]. simpl.
  by apply (loop_run_piece (t :: tasks) (S i)).
Qed.

Lemma loop_run_head (t : Task) (tasks : list Task) (w : World) :
  ∃ w', rtc loop_step (t :: tasks, w) ([] :: tasks, w').
Proof.
  revert w. induction t as [|piece rest IH]; intros w.
  - exists w. apply rtc_refl.
  - destruct (IH (piece w)) as [w' Hrun]. exists w'.
    eapply rtc_l; [|exact Hrun].
    by apply (loop_run_piece (_ :: tasks) 0).
Qed.

Lemma loop_run_all (tasks : list Task) (w : World) :
  ∃ w', rtc loop_step (tasks, w) (replicate (length tasks) [], w').
Proof.
  revert w. induction tasks as [|t tasks IH]; intros w.
  - exists w. apply rtc_refl.
  - destruct (loop_run_head t tasks w) as [w1 Hhead].
    destruct (IH w1) as [w' Hrest]. exists w'.
    etrans; [exact Hhead|].
    apply (rtc_congruence (λ st, ([] :: st.1, st.2)) loop_step) in Hrest;
      [exact Hrest|].
    intros st st'. apply loop_step_later.
Qed.

(** Three callbacks for a new GitHub subject whose profile has no [photos]
    all run to their end and leave no identity; written against C9, which
    says that N callbacks for a new subject leave exactly one. *)
Lemma concurrent_callbacks_without_photos :
  ∃ w',
    rtc loop_step
      (callback_task sample_clock sample_uuid
         <$> replicate 3 (mkCall github "gho_x" JUndefined bea_github_no_photo),
       initial)
      ([[]; []; []], w') ∧
    holders github "gh-7" (users initial) = [] ∧
    users w' = [].
Proof.
  eexists. split.
  - eapply rtc_l; [eapply (loop_run_piece _ 2); reflexivity|].
    eapply rtc_l; [eapply (loop_run_piece _ 0); reflexivity|].
    eapply rtc_l; [eapply (loop_run_piece _ 1); reflexivity|].
    apply rtc_refl.
  - split; reflexivity.
Qed.

(** C9, as the code has it.  Let N callbacks for the same provider and the
    same subject id, not yet known to the Map, be in flight at once.  The
    event loop can run them all to their end, and however it orders them,
    once all have ended the number of stored identities that hold the subject
    id is one if at least one of the callbacks has a profile that the
    creation branch can read, and zero if none has; it is never N, and the
    Map has grown by at most one entry. *)
Theorem concurrent_callbacks_one_identity
    (clock : nat → Z) (uuid_source : nat → string)
    (p : Provider) (s : string) (cs : list Call) (w : World) :
  Forall (λ c, call_provider c = p ∧ Profile.id (call_profile c) = s) cs →
  holders p s (users w) = [] →
  let in_flight_tasks := callback_task clock uuid_source <$> cs in
  (∃ tasks' w',
     rtc loop_step (in_flight_tasks, w) (tasks', w') ∧ all_finished tasks')
  ∧ (∀ tasks' w',
       rtc loop_step (in_flight_tasks, w) (tasks', w') →
       all_finished tasks' →
       length (holders p s (users w'))
         = (if existsb (λ c, creatable p (call_profile c)) cs then 1 else 0) ∧
       length (users w') ≤ S (length (users w))).
Proof.
  intros Hall Hnew. simpl. split.
  - destruct (loop_run_all (callback_task clock uuid_source <$> cs) w)
      as [w' Hrun].
    eexists _, w'. split; [exact Hrun|].
    apply Forall_forall. by intros t [-> _]%elem_of_replicate.
  - intros tasks' w' Hrun Hend.
    assert (in_flight clock uuid_source p s cs (length (users w))
              (callback_task clock uuid_source <$> cs, w)) as Hstart.
    { split; simpl.
      - apply Forall2_fmap_r, Forall_Forall2_diag.
        eapply Forall_impl; [exact Hall|]. intros c Hc. split; [done|by right].
      - left. split_and!; [done..|].
        apply Forall2_fmap_r, Forall_Forall2_diag, Forall_true. done. }
    destruct (in_flight_run _ _ _ _ _ _ _ _ Hrun Hstart)
      as (Htasks & [(Hnone & Hsize & Hfull)|(Hone & Hsize & Hsome)]);
      simpl in *.
    + rewrite Hnone. simpl. split; [|lia].
      destruct (existsb _ cs) eqn:Hex; [|done].
      apply existsb_exists in Hex as (c & Hin & Hread).
      apply list_elem_of_In, list_elem_of_lookup_1 in Hin as [i Hi].
      destruct (Forall2_lookup_l _ _ _ _ _ Hfull Hi) as (t & Ht & Hnot).
      apply list_elem_of_lookup_2 in Ht.
      by destruct (Hnot Hread (proj1 (Forall_forall _ _) Hend t Ht)).
    + split; [|done]. rewrite Hone.
      apply Exists_exists in Hsome as (c & Hin & Hread).
      assert (existsb (λ c, creatable p (call_profile c)) cs = true) as ->; [|done].
      apply existsb_exists. exists c. split; [by apply list_elem_of_In|done].
Qed.

Lemma concurrent_callbacks_one_identity_witness :
  let w' :=
    (reconcile sample_clock sample_uuid ann_google_call
       (reconcile sample_clock sample_uuid ann_google_call
          (reconcile sample_clock sample_uuid ann_google_again initial).2).2).2 in
  length (holders google "g-42" (users w')) = 1 ∧ length (users w') ≤ 1.
Proof.
  destruct (concurrent_callbacks_one_identity sample_clock sample_uuid
              google "g-42" [ann_google_call; ann_google_again; ann_google_call]
              initial) as [_ Hevery].
  - repeat constructor.
  - reflexivity.
  - apply (Hevery [[]; []; []]).
    + eapply rtc_l; [eapply (loop_run_piece _ 1); reflexivity|].
      eapply rtc_l; [eapply (loop_run_piece _ 2); reflexivity|].
      eapply rtc_l; [eapply (loop_run_piece _ 0); reflexivity|].
      apply rtc_refl.
    + repeat constructor.
Defined.

(** ** The bearer-token gate *)

Section GateFacts.
Variable jwt_verify : option string → string → Jwt.Verdict.
Variable secret : string.

Abbreviation gate := (authenticateJWT jwt_verify secret).

Lemma split_no_space s : has_space s = false → split " " s = [s].
Proof.
  induction s as [|c s IH]; simpl; [done|].
  case_decide; [done|]. intros Hs. by rewrite IH.
Qed.

Lemma split_app_space a b :
  has_space a = false → split " " (a +:+ String " " b) = a :: split " " b.
Proof.
  induction a as [|c a IH]; simpl.
  - done.
  - case_decide; [done|]. intros Ha. by rewrite IH.
Qed.

Lemma header_token_scheme scheme token :
  has_space scheme = false → has_space token = false →
  header_token (scheme +:+ " " +:+ token) = Some token.
Proof.
  intros Hs Ht. unfold header_token.
  change (scheme +:+ " " +:+ token) with (scheme +:+ String " " token).
  by rewrite split_app_space, split_no_space.
Qed.

Lemma header_token_one_part h : has_space h = false → header_token h = None.
Proof. intros Hh. unfold header_token. by rewrite split_no_space. Qed.

Lemma gate_absent : gate None = Respond 401 "Token di accesso richiesto".
Proof. done. Qed.

Lemma gate_empty : gate (Some "") = Respond 401 "Token di accesso richiesto".
Proof. done. Qed.

Lemma gate_invalid h e :
  h ≠ "" → jwt_verify (header_token h) secret = Jwt.Invalid e →
  gate (Some h) = Respond 403 "Token non valido".
Proof.
  intros Hh Hv. unfold authenticateJWT.
  destruct (String.eqb_spec h ""); [done|]. by rewrite Hv.
Qed.

Lemma gate_valid h user :
  h ≠ "" → jwt_verify (header_token h) secret = Jwt.Valid user →
  gate (Some h) = Next user.
Proof.
  intros Hh Hv. unfold authenticateJWT.
  destruct (String.eqb_spec h ""); [done|]. by rewrite Hv.
Qed.

End GateFacts.

(** An expired token and a malformed one get the same answer; written
    against C4, which says that the rejection tells them apart. *)
Lemma expired_and_malformed_same_answer :
  sample_verify (header_token "Bearer old.token.sig") "your-jwt-secret-key"
    = Jwt.Invalid Jwt.TokenExpiredError ∧
  sample_verify (header_token "Bearer not-a-token") "your-jwt-secret-key"
    = Jwt.Invalid (Jwt.JsonWebTokenError "jwt malformed") ∧
  authenticateJWT sample_verify "your-jwt-secret-key" (Some "Bearer old.token.sig")
    = authenticateJWT sample_verify "your-jwt-secret-key" (Some "Bearer not-a-token").
Proof. by split_and!. Qed.

(** C4, as the code has it.  Whatever error the token library reports for the
    token of a non-empty header (expired, malformed, forged, not yet valid),
    the gate answers 403 with the one message "Token non valido": two
    rejected tokens get the same answer, with nothing in it that tells an
    expired token from a malformed one. *)
Theorem gate_one_answer_for_every_error
    (jwt_verify : option string → string → Jwt.Verdict) (secret : string)
    (h1 h2 : string) (e1 e2 : Jwt.Error) :
  h1 ≠ "" → h2 ≠ "" →
  jwt_verify (header_token h1) secret = Jwt.Invalid e1 →
  jwt_verify (header_token h2) secret = Jwt.Invalid e2 →
  authenticateJWT jwt_verify secret (Some h1) = Respond 403 "Token non valido" ∧
  authenticateJWT jwt_verify secret (Some h2)
    = authenticateJWT jwt_verify secret (Some h1).
Proof.
  intros Hh1 Hh2 Hv1 Hv2.
  by rewrite (gate_invalid _ _ _ _ Hh1 Hv1), (gate_invalid _ _ _ _ Hh2 Hv2).
Qed.

Lemma gate_one_answer_for_every_error_witness :
  authenticateJWT sample_verify "your-jwt-secret-key" (Some "Bearer old.token.sig")
    = Respond 403 "Token non valido" ∧
  authenticateJWT sample_verify "your-jwt-secret-key" (Some "Bearer not-a-token")
    = authenticateJWT sample_verify "your-jwt-secret-key" (Some "Bearer old.token.sig").
Proof.
  apply (gate_one_answer_for_every_error sample_verify "your-jwt-secret-key"
           "Bearer old.token.sig" "Bearer not-a-token"
           Jwt.TokenExpiredError (Jwt.JsonWebTokenError "jwt malformed"));
    [discriminate|discriminate|reflexivity|reflexivity].
Defined.

(** A request whose Authorization header is there with an empty value, and
    whose token the library would reject, gets the answer of a request with
    no header; written against C6, which says that a present header with a
    rejected token is answered 403 and never as the absent header is. *)
Lemma empty_header_answered_as_absent :
  sample_verify (header_token "") "your-jwt-secret-key"
    = Jwt.Invalid (Jwt.JsonWebTokenError "jwt must be provided") ∧
  authenticateJWT sample_verify "your-jwt-secret-key" (Some "")
    = authenticateJWT sample_verify "your-jwt-secret-key" None.
Proof. by split. Qed.

(** C6, as the code has it.  A request with no Authorization header, or with
    an empty one, is answered 401; a request with a non-empty header whose
    token fails verification is answered 403; the two answers differ. *)
Theorem gate_missing_or_invalid
    (jwt_verify : option string → string → Jwt.Verdict) (secret : string) :
  authenticateJWT jwt_verify secret None
    = Respond 401 "Token di accesso richiesto" ∧
  authenticateJWT jwt_verify secret (Some "")
    = Respond 401 "Token di accesso richiesto" ∧
  ∀ (h : string) (e : Jwt.Error),
    h ≠ "" →
    jwt_verify (header_token h) secret = Jwt.Invalid e →
    authenticateJWT jwt_verify secret (Some h) = Respond 403 "Token non valido" ∧
    authenticateJWT jwt_verify secret (Some h)
      ≠ authenticateJWT jwt_verify secret None.
Proof.
  split_and!; [apply gate_absent|apply gate_empty|].
  intros h e Hh Hv. by rewrite (gate_invalid _ _ _ _ Hh Hv).
Qed.

Lemma gate_missing_or_invalid_witness :
  authenticateJWT sample_verify "your-jwt-secret-key" (Some "Bearer forged.token.sig")
    = Respond 403 "Token non valido" ∧
  authenticateJWT sample_verify "your-jwt-secret-key" (Some "Bearer forged.token.sig")
    ≠ authenticateJWT sample_verify "your-jwt-secret-key" None.
Proof.
  destruct (gate_missing_or_invalid sample_verify "your-jwt-secret-key")
    as (_ & _ & Hinvalid).
  apply (Hinvalid "Bearer forged.token.sig" (Jwt.JsonWebTokenError "jwt malformed"));
    [discriminate|reflexivity].
Defined.

(** The empty header has no second part and is answered 401; written against
    C10, which says that a present header without a second part is answered
    403. *)
Lemma empty_header_no_second_part :
  split " " "" = [""] ∧
  header_token "" = None ∧
  authenticateJWT sample_verify "your-jwt-secret-key" (Some "")
    = Respond 401 "Token di accesso richiesto".
Proof. by split_and!. Qed.

(** C10, as the code has it.  The gate never looks at the scheme: a header
    made of any word without a space, one space, and a token that verifies is
    authorized with the claims of the token.  A non-empty header without a
    space has no second part; the token handed to the library is then
    undefined, and when the library rejects that, as it does, the answer is
    403 and not 401.  The empty header is answered 401. *)
Theorem gate_ignores_scheme
    (jwt_verify : option string → string → Jwt.Verdict) (secret : string) :
  (∀ (scheme token : string) (user : Jwt.Claims),
     has_space scheme = false → has_space token = false →
     jwt_verify (Some token) secret = Jwt.Valid user →
     authenticateJWT jwt_verify secret (Some (scheme +:+ " " +:+ token))
       = Next user)
  ∧ (∀ (h : string) (e : Jwt.Error),
       h ≠ "" → has_space h = false →
       jwt_verify None secret = Jwt.Invalid e →
       authenticateJWT jwt_verify secret (Some h)
         = Respond 403 "Token non valido")
  ∧ authenticateJWT jwt_verify secret (Some "")
      = Respond 401 "Token di accesso richiesto".
Proof.
  split_and!; [| |done].
  - intros scheme token user Hs Ht Hv. apply gate_valid.
    + by destruct scheme.
    + by rewrite header_token_scheme.
  - intros h e Hh Hh' Hnone.
    apply (gate_invalid _ _ _ e); [done|]. by rewrite header_token_one_part.
Qed.

Lemma gate_ignores_scheme_witness :
  authenticateJWT sample_verify "your-jwt-secret-key" (Some "Basic good.token.sig")
    = Next sample_claims ∧
  authenticateJWT sample_verify "your-jwt-secret-key" (Some "good.token.sig")
    = Respond 403 "Token non valido".
Proof.
  destruct (gate_ignores_scheme sample_verify "your-jwt-secret-key")
    as (Hvalid & Hone_part & _).
  split.
  - apply (Hvalid "Basic" "good.token.sig" sample_claims); reflexivity.
  - apply (Hone_part "good.token.sig" (Jwt.JsonWebTokenError "jwt must be provided"));
      [discriminate|reflexivity|reflexivity].
Defined.

(** * Further properties of the code *)

(** ** What the callbacks never change *)

Lemma get_alter_cases (f : User.t → User.t) (i : nat) (k : string)
    (u : User.t) (m : JsMap.t) :
  JsMap.get k m = Some u →
  ∃ u', JsMap.get k (alter (λ kv, (kv.1, f kv.2)) i m) = Some u' ∧
        (u' = u ∨ u' = f u).
Proof.
  revert i. induction m as [|[k0 v0] m IH]; intros i Hget; [done|].
  simpl in Hget. destruct i as [|i]; simpl.
  - case_decide; simplify_eq; eauto.
  - case_decide; simplify_eq; [eauto|]. by apply IH.
Qed.

Section Frozen.
Variable clock : nat → Z.
Variable uuid_source : nat → string.

Lemma reconcile_uuids_grow (c : Call) (w : World) :
  uuids w ≤ uuids (reconcile clock uuid_source c w).2.
Proof.
  destruct (reconcile_cases clock uuid_source c w)
    as [(i & u & _ & ->)|[(_ & _ & ->)|(_ & _ & e & ->)]]; simpl; lia.
Qed.

Lemma reconcile_dates_grow (c : Call) (w : World) :
  dates w ≤ dates (reconcile clock uuid_source c w).2.
Proof.
  destruct (reconcile_cases clock uuid_source c w)
    as [(i & u & _ & ->)|[(_ & _ & ->)|(_ & _ & e & ->)]]; simpl; lia.
Qed.

Lemma reconcile_keeps_entry (c : Call) (w : World) (k : string) (u : User.t) :
  JsMap.get k (users w) = Some u →
  uuid_source (uuids w) ≠ k →
  ∃ u', JsMap.get k (users (reconcile clock uuid_source c w).2) = Some u' ∧
        frozen_fields u' = frozen_fields u.
Proof.
  intros Hget Hfresh.
  destruct (reconcile_cases clock uuid_source c w)
    as [(i & u0 & _ & ->)|[(_ & _ & ->)|(_ & _ & e & ->)]]; simpl.
  - destruct (get_alter_cases (touched clock c w) i k u (users w) Hget)
      as (u' & Hget' & [->| ->]); eauto.
  - exists u. by rewrite get_set_ne.
  - eauto.
Qed.

End Frozen.

(** An identity stored under key [k] stays there through any further
    callbacks, with the same frozen fields, as long as
    [crypto.randomUUID()] does not return [k] again. *)
Lemma stored_identity_keeps_its_fields
    (clock : nat → Z) (uuid_source : nat → string)
    (cs : list Call) (w : World) (k : string) (u : User.t) :
  JsMap.get k (users w) = Some u →
  (∀ n, uuids w ≤ n → uuid_source n ≠ k) →
  ∃ u', JsMap.get k (users (run_calls clock uuid_source cs w)) = Some u' ∧
        frozen_fields u' = frozen_fields u.
Proof.
  revert w u. induction cs as [|c cs IH]; intros w u Hget Hfresh; simpl.
  - by exists u.
  - destruct (reconcile_keeps_entry clock uuid_source c w k u Hget)
      as (u1 & Hget1 & Hsame1); [by apply Hfresh|].
    destruct (IH _ u1 Hget1) as (u' & Hget' & Hsame').
    + intros n Hn. apply Hfresh.
      pose proof (reconcile_uuids_grow clock uuid_source c w). lia.
    + exists u'. split; [done|]. by rewrite Hsame'.
Qed.

Lemma sample_uuid_length (n : nat) : String.length (sample_uuid n) = 5 + n.
Proof.
  unfold sample_uuid. simpl. do 5 f_equal.
  induction n as [|n IH]; simpl; [done|].
  destruct n; simpl in *; [done|]. by f_equal.
Qed.

Lemma sample_uuid_inj (i j : nat) : sample_uuid i = sample_uuid j → i = j.
Proof.
  intros Heq. apply (f_equal String.length) in Heq.
  rewrite !sample_uuid_length in Heq. lia.
Qed.

(** ** What every stored identity looks like *)

Section StoredShape.
Variable clock : nat → Z.
Variable uuid_source : nat → string.

(** Where an identity found in the Map after a callback comes from. *)
Lemma values_after_reconcile (c : Call) (w : World) (u : User.t) :
  u ∈ JsMap.values (users (reconcile clock uuid_source c w).2) →
  u ∈ JsMap.values (users w)
  ∨ (∃ u0, u0 ∈ JsMap.values (users w) ∧ u = touched clock c w u0 ∧
           dates (reconcile clock uuid_source c w).2 = S (dates w))
  ∨ (u = created clock uuid_source c w ∧
     dates (reconcile clock uuid_source c w).2 = S (S (dates w))).
Proof.
  destruct (reconcile_cases clock uuid_source c w)
    as [(i & u1 & _ & ->)|[(_ & _ & ->)|(_ & _ & e & ->)]]; simpl;
    [| |by left]; unfold JsMap.values.
  - intros ([k u'] & -> & (u0 & Hin & [->| ->])%elem_of_alter_snd)%list_elem_of_fmap;
      simpl.
    + left. apply list_elem_of_fmap. by exists (k, u0).
    + right. left. exists u0. split; [|done].
      apply list_elem_of_fmap. by exists (k, u0).
  - intros ([k u'] & -> & [[= -> ->]|Hin]%elem_of_set)%list_elem_of_fmap; simpl.
    + by right; right.
    + left. apply list_elem_of_fmap. by exists (k, u').
Qed.

Lemma keys_after_reconcile (c : Call) (w : World) (k : string) :
  k ∈ JsMap.keys (users (reconcile clock uuid_source c w).2) →
  k ∈ JsMap.keys (users w)
  ∨ (k = uuid_source (uuids w) ∧
     uuids (reconcile clock uuid_source c w).2 = S (uuids w)).
Proof.
  destruct (reconcile_cases clock uuid_source c w)
    as [(i & u1 & _ & ->)|[(_ & _ & ->)|(_ & _ & e & ->)]]; simpl;
    [rewrite keys_alter; by left| |by left].
  unfold JsMap.keys.
  intros ([k' u'] & -> & [[= -> ->]|Hin]%elem_of_set)%list_elem_of_fmap; simpl.
  - by right.
  - left. apply list_elem_of_fmap. by exists (k', u').
Qed.

Lemma keys_kept_by_reconcile (c : Call) (w : World) (k : string) :
  k ∈ JsMap.keys (users w) →
  k ∈ JsMap.keys (users (reconcile clock uuid_source c w).2).
Proof.
  intros Hk.
  destruct (reconcile_cases clock uuid_source c w)
    as [(i & u1 & _ & ->)|[(_ & _ & ->)|(_ & _ & e & ->)]]; simpl;
    [by rewrite keys_alter| |done].
  unfold JsMap.keys in *.
  destruct (set_shape (uuid_source (uuids w)) (created clock uuid_source c w)
              (users w)) as [(m1 & v0 & m2 & Hm & _ & ->)|[_ ->]].
  - rewrite Hm in Hk. by rewrite fmap_app, fmap_cons in *.
  - rewrite fmap_app, elem_of_app. by left.
Qed.

Lemma length_after_reconcile (c : Call) (w : World) :
  length (users w) ≤ length (users (reconcile clock uuid_source c w).2)
  ≤ S (length (users w)).
Proof.
  destruct (reconcile_cases clock uuid_source c w)
    as [(i & u1 & _ & ->)|[(_ & _ & ->)|(_ & _ & e & ->)]]; simpl;
    [rewrite length_alter; lia| |lia].
  split; [|apply length_set].
  destruct (set_shape (uuid_source (uuids w)) (created clock uuid_source c w)
              (users w)) as [(m1 & v0 & m2 & Hm & _ & ->)|[_ ->]].
  - rewrite Hm at 1. rewrite !length_app. simpl. lia.
  - rewrite length_app. lia.
Qed.

End StoredShape.

(** X1.  Every identity the callbacks have stored names the provider it came
    from and holds the subject id of that provider only: it was created by
    the Google callback, has [provider = 'google'], a [googleId] and no
    [githubId], or the same with GitHub. *)
Theorem identity_names_its_provider
    (clock : nat → Z) (uuid_source : nat → string)
    (cs : list Call) (u : User.t) :
  u ∈ JsMap.values (users (run_calls clock uuid_source cs initial)) →
  (User.provider u = "google" ∧ is_Some (User.googleId u) ∧
   User.githubId u = None)
  ∨ (User.provider u = "github" ∧ is_Some (User.githubId u) ∧
     User.googleId u = None).
Proof.
  revert u.
  apply (run_calls_invariant clock uuid_source
           (λ w, ∀ u, u ∈ JsMap.values (users w) → _)).
  - intros c w IH u
      [Hin|[(u0 & Hin & -> & _)|[-> _]]]%values_after_reconcile.
    + by apply IH.
    + apply (IH u0 Hin).
    + destruct c as [[] a r profile]; simpl; [left|right]; eauto.
  - intros u Hin. by apply elem_of_nil in Hin.
Qed.

Lemma identity_names_its_provider_witness :
  let u := created sample_clock sample_uuid ann_github_call
             (reconcile sample_clock sample_uuid ann_google_call initial).2 in
  (User.provider u = "google" ∧ is_Some (User.googleId u) ∧
   User.githubId u = None)
  ∨ (User.provider u = "github" ∧ is_Some (User.githubId u) ∧
     User.googleId u = None).
Proof.
  apply (identity_names_its_provider sample_clock sample_uuid
           [ann_google_call; ann_github_call]).
  apply (bool_decide_unpack _). vm_compute. exact I.
Defined.

(** ** Timestamps *)

Lemma stored_timestamps_are_readings
    (clock : nat → Z) (uuid_source : nat → string) (cs : list Call) :
  let w := run_calls clock uuid_source cs initial in
  ∀ u, u ∈ JsMap.values (users w) →
       ∃ a b, a ≤ b ∧ b < dates w ∧
              User.createdAt u = clock a ∧ User.lastLogin u = clock b.
Proof.
  simpl.
  apply (run_calls_invariant clock uuid_source
           (λ w, ∀ u, u ∈ JsMap.values (users w) →
                      ∃ a b, a ≤ b ∧ b < dates w ∧
                             User.createdAt u = clock a ∧
                             User.lastLogin u = clock b)).
  - intros c w IH u Hin.
    pose proof (reconcile_dates_grow clock uuid_source c w) as Hgrow.
    apply values_after_reconcile in Hin
      as [Hin|[(u0 & Hin & -> & Hd)|[-> Hd]]].
    + destruct (IH u Hin) as (a & b & ? & ? & ? & ?).
      exists a, b. split_and!; [done|lia|done..].
    + destruct (IH u0 Hin) as (a & b & ? & ? & Hc & ?).
      exists a, (dates w). rewrite Hd. split_and!; [lia|lia|done..].
    + exists (dates w), (S (dates w)). rewrite Hd.
      split_and!; [lia|lia| |apply lastLogin_created].
      by destruct c as [[] ? ? ?].
  - intros u Hin. by apply elem_of_nil in Hin.
Qed.

(** X2.  With a clock that does not run backwards, every stored identity has
    [createdAt ≤ lastLogin], and its [lastLogin] is not later than any
    reading of the clock still to come: a later login never moves
    [lastLogin] back. *)
Theorem created_not_after_last_login
    (clock : nat → Z) (uuid_source : nat → string)
    (cs : list Call) (u : User.t) (n : nat) :
  (∀ i j, i ≤ j → (clock i ≤ clock j)%Z) →
  u ∈ JsMap.values (users (run_calls clock uuid_source cs initial)) →
  dates (run_calls clock uuid_source cs initial) ≤ n →
  (User.createdAt u ≤ User.lastLogin u)%Z ∧
  (User.lastLogin u ≤ clock n)%Z.
Proof.
  intros Hmono Hin Hn.
  destruct (stored_timestamps_are_readings clock uuid_source cs u Hin)
    as (a & b & Hab & Hb & -> & ->).
  split; apply Hmono; lia.
Qed.

Lemma created_not_after_last_login_witness :
  let u := touched sample_clock ann_google_again
             (reconcile sample_clock sample_uuid ann_google_call initial).2
             (created sample_clock sample_uuid ann_google_call initial) in
  (User.createdAt u ≤ User.lastLogin u)%Z ∧
  (User.lastLogin u ≤ sample_clock 7)%Z.
Proof.
  apply (created_not_after_last_login sample_clock sample_uuid
           [ann_google_call; ann_google_again]).
  - apply sample_clock_monotone.
  - apply (bool_decide_unpack _). vm_compute. exact I.
  - vm_compute. lia.
Defined.

(** ** Identifiers *)

Lemma stored_keys_were_drawn
    (clock : nat → Z) (uuid_source : nat → string) (cs : list Call) :
  let w := run_calls clock uuid_source cs initial in
  ∀ k, k ∈ JsMap.keys (users w) → ∃ n, n < uuids w ∧ k = uuid_source n.
Proof.
  simpl.
  apply (run_calls_invariant clock uuid_source
           (λ w, ∀ k, k ∈ JsMap.keys (users w) →
                      ∃ n, n < uuids w ∧ k = uuid_source n)).
  - intros c w IH k Hin.
    pose proof (reconcile_uuids_grow clock uuid_source c w) as Hgrow.
    apply keys_after_reconcile in Hin as [Hin|[-> Hu]].
    + destruct (IH k Hin) as (n & ? & ?). exists n. split; [lia|done].
    + exists (uuids w). split; [lia|done].
  - intros k Hin. by apply elem_of_nil in Hin.
Qed.

(** X3.  If [crypto.randomUUID()] never returns the same identifier twice,
    the identifier it returns next is never a key of the Map: the creation
    branch files each new identity under a new key and overwrites nothing. *)
Theorem next_identifier_is_fresh
    (clock : nat → Z) (uuid_source : nat → string) (cs : list Call) :
  (∀ i j, uuid_source i = uuid_source j → i = j) →
  let w := run_calls clock uuid_source cs initial in
  uuid_source (uuids w) ∉ JsMap.keys (users w).
Proof.
  intros Hinj w Hin.
  destruct (stored_keys_were_drawn clock uuid_source cs _ Hin) as (n & Hn & Heq).
  apply Hinj in Heq. fold w in Hn. lia.
Qed.

Lemma next_identifier_is_fresh_witness :
  sample_uuid 2
  ∉ JsMap.keys (users (run_calls sample_clock sample_uuid
                         [ann_google_call; ann_github_call] initial)).
Proof.
  exact (next_identifier_is_fresh sample_clock sample_uuid
           [ann_google_call; ann_github_call] sample_uuid_inj).
Defined.

(** X4.  If [crypto.randomUUID()] never returns the same identifier twice, an
    identity the callbacks have stored is never lost: whatever callbacks run
    later, the Map still holds an identity under the same key, with the same
    [id], subject ids, [email], [name], [avatar], [provider], [refreshToken]
    and [createdAt]. *)
Theorem stored_identity_never_lost
    (clock : nat → Z) (uuid_source : nat → string)
    (cs later : list Call) (k : string) (u : User.t) :
  (∀ i j, uuid_source i = uuid_source j → i = j) →
  JsMap.get k (users (run_calls clock uuid_source cs initial)) = Some u →
  ∃ u', JsMap.get k (users (run_calls clock uuid_source (cs ++ later) initial))
          = Some u' ∧
        frozen_fields u' = frozen_fields u.
Proof.
  intros Hinj Hget.
  assert (run_calls clock uuid_source (cs ++ later) initial
          = run_calls clock uuid_source later
              (run_calls clock uuid_source cs initial)) as ->.
  { clear Hget. generalize initial.
    induction cs as [|c cs IH]; intros w; simpl; [done|apply IH]. }
  apply stored_identity_keeps_its_fields; [done|].
  intros n Hn Heq.
  assert (k ∈ JsMap.keys (users (run_calls clock uuid_source cs initial))) as Hk.
  { apply dec_stable. intros Hnot. apply get_None_not_key in Hnot. congruence. }
  destruct (stored_keys_were_drawn clock uuid_source cs k Hk) as (m & Hm & ->).
  apply Hinj in Heq. lia.
Qed.

Lemma stored_identity_never_lost_witness :
  ∃ u',
    JsMap.get "uuid-"
      (users (run_calls sample_clock sample_uuid
                ([ann_google_call] ++ [ann_github_call; ann_google_again])
                initial))
      = Some u' ∧
    frozen_fields u'
      = frozen_fields (created sample_clock sample_uuid ann_google_call initial).
Proof.
  apply (stored_identity_never_lost sample_clock sample_uuid
           [ann_google_call] [ann_github_call; ann_google_again] "uuid-").
  - apply sample_uuid_inj.
  - reflexivity.
Defined.

(** ** The Map as a whole *)

(** X5.  No callback removes an entry: through any callbacks every key of the
    Map stays a key, the number of entries does not go down, and [n]
    callbacks add at most [n] entries. *)
Theorem map_only_grows
    (clock : nat → Z) (uuid_source : nat → string)
    (cs : list Call) (w : World) :
  let w' := run_calls clock uuid_source cs w in
  (∀ k, k ∈ JsMap.keys (users w) → k ∈ JsMap.keys (users w'))
  ∧ length (users w) ≤ length (users w') ≤ length (users w) + length cs.
Proof.
  simpl. revert w. induction cs as [|c cs IH]; intros w; simpl.
  - split; [done|lia].
  - destruct (IH (reconcile clock uuid_source c w).2) as [Hkeys Hlen].
    pose proof (length_after_reconcile clock uuid_source c w).
    split; [|lia].
    intros k Hk. by apply Hkeys, keys_kept_by_reconcile.
Qed.

(** X6.  A callback touches one entry at most.  When it returns an identity,
    every entry filed under another key than the [id] of that identity is as
    it was before; when it hands an error to [done], the whole Map is as it
    was before. *)
Theorem login_leaves_others_alone
    (clock : nat → Z) (uuid_source : nat → string)
    (cs : list Call) (c : Call) (e : option JsError) (r : option User.t)
    (w' : World) :
  let w := run_calls clock uuid_source cs initial in
  reconcile clock uuid_source c w = (Normal (done e r), w') →
  match r with
  | Some u =>
      ∀ k, k ≠ User.id u → JsMap.get k (users w') = JsMap.get k (users w)
  | None => users w' = users w
  end.
Proof.
  simpl. intros Hrun.
  pose proof (reachable_store_ok clock uuid_source _ (ex_intro _ cs eq_refl))
    as [_ Hid _].
  destruct (reconcile_cases clock uuid_source c
              (run_calls clock uuid_source cs initial))
    as [(i & u0 & Hfind & Hrun')|[(_ & _ & Hrun')|(_ & _ & e' & Hrun')]];
    rewrite Hrun' in Hrun; simplify_eq; simpl; [| |done].
  - intros k Hk. apply list_find_Some in Hfind as (Hi & _ & _).
    rewrite values_lookup in Hi.
    destruct (users (run_calls clock uuid_source cs initial) !! i)
      as [[k0 u']|] eqn:Hwi; simplify_eq/=.
    apply (get_alter_other _ _ _ _ _ _ Hwi).
    rewrite <- (Hid k0 u0) by (by eapply list_elem_of_lookup_2). done.
  - intros k Hk. rewrite id_created in Hk. by apply get_set_ne.
Qed.

Lemma login_leaves_others_alone_witness :
  JsMap.get "uuid-"
    (users (run_calls sample_clock sample_uuid
              [ann_google_call; ann_github_call] initial))
  = JsMap.get "uuid-"
      (users (run_calls sample_clock sample_uuid [ann_google_call] initial)).
Proof.
  refine (login_leaves_others_alone sample_clock sample_uuid
            [ann_google_call] ann_github_call None
            (Some (created sample_clock sample_uuid ann_github_call
                     (reconcile sample_clock sample_uuid ann_google_call
                        initial).2))
            _ eq_refl "uuid-" _).
  discriminate.
Defined.

(** ** Reading the token out of the header *)

Lemma split_parts_no_space (s : string) :
  Forall (λ part, has_space part = false) (split " " s).
Proof.
  induction s as [|c s IH]; simpl.
  - by repeat constructor.
  - case_decide as Hc.
    + by constructor.
    + destruct (split " " s) as [|part parts]; simpl.
      * repeat constructor. simpl. by rewrite decide_False.
      * apply Forall_cons in IH as [Hpart Hparts].
        constructor; [|done]. simpl. by rewrite decide_False.
Qed.

Lemma split_two_parts (s : string) :
  has_space s = true → ∃ a b parts, split " " s = a :: b :: parts.
Proof.
  induction s as [|c s IH]; simpl; [done|].
  case_decide as Hc.
  - intros _. destruct (split " " s) as [|b parts] eqn:Hs.
    + destruct s; simpl in Hs; [done|]. case_decide; [done|].
      by destruct (split " " s).
    + by exists "", b, parts.
  - intros Hs. destruct (IH Hs) as (a & b & parts & ->).
    by exists (String c a), b, parts.
Qed.

Lemma header_token_is_second_part_aux (scheme token rest : string) :
  has_space scheme = false → has_space token = false →
  header_token (scheme +:+ " " +:+ token +:+ " " +:+ rest) = Some token.
Proof.
  intros Hs Ht. unfold header_token.
  change (scheme +:+ " " +:+ token +:+ " " +:+ rest)
    with (scheme +:+ String " " (token +:+ String " " rest)).
  by rewrite !split_app_space.
Qed.

(** X7.  [authHeader.split(' ')[1]] is undefined exactly when the header has
    no space; when it is defined it contains no space; and it is the part
    between the first and the second space, whatever follows the second
    space. *)
Theorem header_token_is_second_part (h : string) :
  (header_token h = None ↔ has_space h = false)
  ∧ (∀ t, header_token h = Some t → has_space t = false)
  ∧ (∀ scheme token rest,
       has_space scheme = false → has_space token = false →
       h = scheme +:+ " " +:+ token +:+ " " +:+ rest →
       header_token h = Some token).
Proof.
  split_and!.
  - split.
    + intros Hnone. destruct (has_space h) eqn:Hh; [|done].
      destruct (split_two_parts h Hh) as (a & b & parts & Hs).
      unfold header_token in Hnone. by rewrite Hs in Hnone.
    + apply header_token_one_part.
  - intros t Ht. unfold header_token in Ht.
    apply list_elem_of_lookup_2 in Ht.
    by apply (proj1 (Forall_forall _ _) (split_parts_no_space h)).
  - intros scheme token rest Hs Ht ->.
    by apply header_token_is_second_part_aux.
Qed.

Lemma header_token_is_second_part_witness :
  header_token "Bearer good.token.sig and more" = Some "good.token.sig".
Proof.
  destruct (header_token_is_second_part "Bearer good.token.sig and more")
    as (_ & _ & Hsecond).
  by apply (Hsecond "Bearer" "good.token.sig" "and more").
Defined.

(** ** The protected route *)

(** X8.  [GET /api/protected] serves the resource exactly when the header is
    non-empty and the token library accepts its second part under
    [config.jwt.secret]; the reply then carries the claims the library
    returned.  Every other request is answered 401 (no header, or an empty
    one) or 403. *)
Theorem protected_route_serves_valid_tokens_only
    (jwt_verify : option string → string → Jwt.Verdict) (cfg : Config.t)
    (now : Z) (authHeader : option string) :
  let reply := api_protected jwt_verify cfg now authHeader in
  (∀ message user timestamp,
     reply = ReplyProtected message user timestamp ↔
     message = "Accesso autorizzato alla risorsa protetta" ∧ timestamp = now ∧
     ∃ h, authHeader = Some h ∧ h ≠ "" ∧
          jwt_verify (header_token h) (Config.jwt_secret cfg) = Jwt.Valid user)
  ∧ ((∃ user, reply = ReplyProtected
                        "Accesso autorizzato alla risorsa protetta" user now)
     ∨ reply = ReplyError 401 "Token di accesso richiesto"
     ∨ reply = ReplyError 403 "Token non valido").
Proof.
  simpl. unfold api_protected, authenticateJWT.
  destruct authHeader as [h|]; simpl.
  - destruct (String.eqb_spec h "") as [->|Hh]; simpl.
    + split; [|by right; left].
      intros message user timestamp. split; [done|].
      by intros (_ & _ & h & [= <-] & ? & _).
    + destruct (jwt_verify (header_token h) (Config.jwt_secret cfg))
        as [err|user0] eqn:Hv; simpl.
      * split; [|by right; right].
        intros message user timestamp. split; [done|].
        intros (_ & _ & h' & [= <-] & _ & Hv'). congruence.
      * split; [|left; by exists user0].
        intros message user timestamp. split.
        -- intros [= <- <- <-]. split_and!; [done..|]. by exists h.
        -- intros (-> & -> & h' & [= <-] & _ & Hv'). congruence.
  - split; [|by right; left].
    intros message user timestamp. split; [done|].
    by intros (_ & _ & h & [=] & _).
Qed.

(** X9.  What follows the token in the header is ignored, and a second space
    right after the scheme hides the token: a header "scheme token rest" is
    authorized when the token verifies, and a header with two spaces after
    the scheme hands the empty string to the library, so it is answered 403
    when the library rejects the empty string, whatever comes after. *)
Theorem gate_reads_second_part_only
    (jwt_verify : option string → string → Jwt.Verdict) (secret : string)
    (scheme : string) :
  has_space scheme = false →
  (∀ token rest user,
     has_space token = false →
     jwt_verify (Some token) secret = Jwt.Valid user →
     authenticateJWT jwt_verify secret
       (Some (scheme +:+ " " +:+ token +:+ " " +:+ rest)) = Next user)
  ∧ (∀ token e,
       jwt_verify (Some "") secret = Jwt.Invalid e →
       authenticateJWT jwt_verify secret (Some (scheme +:+ "  " +:+ token))
         = Respond 403 "Token non valido").
Proof.
  intros Hs. split.
  - intros token rest user Ht Hv. apply gate_valid; [by destruct scheme|].
    by rewrite (header_token_is_second_part_aux scheme token rest Hs Ht).
  - intros token e Hv. apply (gate_invalid _ _ _ e); [by destruct scheme|].
    change (scheme +:+ "  " +:+ token)
      with (scheme +:+ " " +:+ "" +:+ " " +:+ token).
    by rewrite (header_token_is_second_part_aux scheme "" token Hs eq_refl).
Qed.

Lemma gate_reads_second_part_only_witness :
  authenticateJWT sample_verify "your-jwt-secret-key"
    (Some "Bearer good.token.sig trailing words") = Next sample_claims
  ∧ authenticateJWT sample_verify "your-jwt-secret-key"
      (Some "Bearer  good.token.sig") = Respond 403 "Token non valido".
Proof.
  destruct (gate_reads_second_part_only sample_verify "your-jwt-secret-key"
              "Bearer" eq_refl) as [Htrail Hdouble].
  split.
  - by apply (Htrail "good.token.sig" "trailing words" sample_claims).
  - by apply (Hdouble "good.token.sig" (Jwt.JsonWebTokenError "jwt malformed")).
Defined.

(** ** Configuration and start-up report *)

Lemma env_or_not_empty (value : option string) (fallback : string) :
  fallback ≠ "" → env_or value fallback ≠ "".
Proof.
  intros Hf. unfold env_or. destruct value as [s|]; [|done].
  by destruct (String.eqb_spec s "").
Qed.

Lemma env_or_cases (value : option string) (fallback : string) :
  (∃ s, value = Some s ∧ s ≠ "" ∧ env_or value fallback = s)
  ∨ ((value = None ∨ value = Some "") ∧ env_or value fallback = fallback).
Proof.
  unfold env_or. destruct value as [s|]; [|by right; split; [left|]].
  destruct (String.eqb_spec s "") as [->|Hs].
  - right. split; [by right|done].
  - left. by exists s.
Qed.

(** X11.  Whatever the environment, no secret or client id in [config] is
    the empty string; and the key that signs and verifies the tokens is
    [JWT_SECRET] when that variable is set and not empty, and the literal
    'your-jwt-secret-key' in every other case. *)
Theorem config_secrets_never_empty (env : string → option string) :
  let cfg := config env in
  Config.jwt_secret cfg ≠ "" ∧ Config.session_secret cfg ≠ "" ∧
  Config.google_clientID cfg ≠ "" ∧ Config.google_clientSecret cfg ≠ "" ∧
  Config.github_clientID cfg ≠ "" ∧ Config.github_clientSecret cfg ≠ "" ∧
  ((∃ s, env "JWT_SECRET" = Some s ∧ s ≠ "" ∧ Config.jwt_secret cfg = s)
   ∨ ((env "JWT_SECRET" = None ∨ env "JWT_SECRET" = Some "") ∧
      Config.jwt_secret cfg = "your-jwt-secret-key")).
Proof.
  simpl. split_and!; try (by apply env_or_not_empty). apply env_or_cases.
Qed.

(** X12.  The start-up report of server.js calls Google configured exactly
    when [GOOGLE_CLIENT_ID] is set, not empty and not the placeholder
    'your-google-client-id'; the same for GitHub with [GITHUB_CLIENT_ID] and
    its placeholder. *)
Theorem startup_report_tells_placeholders (env : string → option string) :
  (startup_google (config env) = "✅ Configurato" ↔
   ∃ v, env "GOOGLE_CLIENT_ID" = Some v ∧ v ≠ "" ∧ v ≠ "your-google-client-id")
  ∧ (startup_github (config env) = "✅ Configurato" ↔
     ∃ v, env "GITHUB_CLIENT_ID" = Some v ∧ v ≠ "" ∧ v ≠ "your-github-client-id").
Proof.
  assert (∀ value placeholder,
            placeholder ≠ "" →
            startup_status (env_or value placeholder) placeholder = "✅ Configurato"
            ↔ ∃ v, value = Some v ∧ v ≠ "" ∧ v ≠ placeholder) as Hone.
  { intros value placeholder Hp. unfold startup_status.
    destruct (env_or_cases value placeholder)
      as [(s & -> & Hs & ->)|[Hv ->]].
    - destruct (String.eqb_spec s "") as [?|_]; [done|].
      destruct (String.eqb_spec s placeholder) as [->|Hsp]; simpl.
      + split; [done|]. by intros (v & [= <-] & _ & ?).
      + split; [|done]. intros _. by exists s.
    - rewrite String.eqb_refl, andb_false_r. split; [done|].
      intros (v & Hv' & Hne & _). destruct Hv as [->| ->]; congruence. }
  split; by apply Hone.
Qed.

(** X13.  The start-up report of the earlier version of the file calls both
    providers configured in every environment, also when no client id is
    set: the client id it tests already has the placeholder in it. *)
Theorem earlier_startup_report_always_configured (env : string → option string) :
  startup_status_earlier (Config.google_clientID (config env)) = "Configurato" ∧
  startup_status_earlier (Config.github_clientID (config env)) = "Configurato".
Proof.
  assert (∀ s, s ≠ "" → startup_status_earlier s = "Configurato") as Hone.
  { intros s Hs. unfold startup_status_earlier.
    by destruct (String.eqb_spec s ""). }
  split; apply Hone; by apply env_or_not_empty.
Qed.

(** ** From the login to the protected route *)

(** X14.  The token made by an OAuth callback route is signed over the [id],
    [email], [name] and [provider] of the identity that logged in, with
    [config.jwt.secret] and [expiresIn = '24h'], and kept in the session;
    [/api/token] hands that token out, and [/api/protected] verifies with the
    same secret.  So when the library's token has no space in it and the
    library accepts its own token with the payload it signed, the header
    "Bearer <token>" is answered with the resource and with the four fields
    of the identity as they were at login. *)
Theorem login_token_opens_protected_route
    (jwt_verify : option string → string → Jwt.Verdict)
    (jwt_sign : TokenPayload.t → string → string → string)
    (env : string → option string) (user : User.t) (iat exp now : Z) :
  let cfg := config env in
  let token :=
    jwt_sign
      (TokenPayload.mk (User.id user) (User.email user) (User.name user)
                       (User.provider user))
      (Config.jwt_secret cfg) "24h" in
  let claims :=
    Jwt.mkClaims (User.id user) (User.email user) (User.name user)
                 (User.provider user) iat exp in
  has_space token = false →
  jwt_verify (Some token) (Config.jwt_secret cfg) = Jwt.Valid claims →
  oauth_callback_route jwt_sign cfg user = (JStr token, ReplyRedirect "/") ∧
  api_token cfg (mkSessionRequest true (Some user) (JStr token))
    = ReplyToken (JStr token) "24h" ∧
  api_protected jwt_verify cfg now (Some ("Bearer " +:+ token))
    = ReplyProtected "Accesso autorizzato alla risorsa protetta" claims now.
Proof.
  intros cfg token claims Hspace Hv. split_and!; [done..|].
  assert (authenticateJWT jwt_verify (Config.jwt_secret cfg)
            (Some ("Bearer " +:+ token)) = Next claims) as Hgate.
  { apply gate_valid; [done|].
    change ("Bearer " +:+ token) with ("Bearer" +:+ " " +:+ token).
    by rewrite header_token_scheme. }
  unfold api_protected. by rewrite Hgate.
Qed.

Lemma login_token_opens_protected_route_witness :
  let ann := created sample_clock sample_uuid ann_google_call initial in
  oauth_callback_route sample_sign (config (λ _, None)) ann
    = (JStr "good.token.sig", ReplyRedirect "/") ∧
  api_token (config (λ _, None))
      (mkSessionRequest true (Some ann) (JStr "good.token.sig"))
    = ReplyToken (JStr "good.token.sig") "24h" ∧
  api_protected sample_verify (config (λ _, None)) 1700000000500
      (Some "Bearer good.token.sig")
    = ReplyProtected "Accesso autorizzato alla risorsa protetta"
        sample_claims 1700000000500.
Proof.
  exact (login_token_opens_protected_route sample_verify sample_sign
           (λ _, None)
           (created sample_clock sample_uuid ann_google_call initial)
           1700000000 1700086400 1700000000500 eq_refl eq_refl).
Defined.

(** ** The identity a callback returns *)

(** X15.  The identity a callback hands to [done] is the object the Map holds
    under its [id] when the callback ends: it carries the subject id of the
    call under the provider of the call, the access token of the call, and
    the last reading of the clock as [lastLogin]. *)
Theorem returned_identity_is_stored
    (clock : nat → Z) (uuid_source : nat → string)
    (cs : list Call) (c : Call) (u : User.t) (w' : World) :
  reconcile clock uuid_source c (run_calls clock uuid_source cs initial)
    = (Normal (done None (Some u)), w') →
  JsMap.get (User.id u) (users w') = Some u ∧
  subject_of (call_provider c) u = Some (Profile.id (call_profile c)) ∧
  User.accessToken u = call_accessToken c ∧
  ∃ n, dates w' = S n ∧ User.lastLogin u = clock n.
Proof.
  intros Hrun.
  pose proof (reachable_store_ok clock uuid_source _ (ex_intro _ cs eq_refl))
    as Hok.
  destruct (reconcile_result_stored _ _ _ _ _ _ Hok Hrun) as [Hget Hsub].
  split_and!; [done..| |].
  - destruct (reconcile_cases clock uuid_source c
                (run_calls clock uuid_source cs initial))
      as [(i & u0 & _ & Hrun')|[(_ & _ & Hrun')|(_ & _ & e & Hrun')]];
      rewrite Hrun' in Hrun; simplify_eq; [done|].
    by destruct c as [[] ? ? ?].
  - destruct (reconcile_cases clock uuid_source c
                (run_calls clock uuid_source cs initial))
      as [(i & u0 & _ & Hrun')|[(_ & _ & Hrun')|(_ & _ & e & Hrun')]];
      rewrite Hrun' in Hrun; simplify_eq; simpl.
    + by eexists.
    + eexists. split; [done|]. apply lastLogin_created.
Qed.

Lemma returned_identity_is_stored_witness :
  ∃ u w',
    reconcile sample_clock sample_uuid ann_google_again
      (run_calls sample_clock sample_uuid [ann_google_call] initial)
      = (Normal (done None (Some u)), w') ∧
    JsMap.get (User.id u) (users w') = Some u ∧
    User.accessToken u = "ya29.second".
Proof.
  eexists _, _. split; [reflexivity|].
  destruct (returned_identity_is_stored sample_clock sample_uuid
              [ann_google_call] ann_google_again _ _ eq_refl)
    as (Hget & _ & Htoken & _).
  split; [exact Hget|exact Htoken].
Defined.

(** ** The same subject id at two providers *)

Lemma run_calls_snoc (clock : nat → Z) (uuid_source : nat → string)
    (cs : list Call) (c : Call) (w : World) :
  run_calls clock uuid_source (cs ++ [c]) w
  = (reconcile clock uuid_source c (run_calls clock uuid_source cs w)).2.
Proof. revert w. induction cs as [|c0 cs IH]; intros w; simpl; [done|apply IH]. Qed.

(** After Google's "g-42" is stored, a GitHub callback for "g-42" whose
    profile has no [photos] hands an error to [done] and the Map keeps its one
    entry; written against C8, which says that the two reconciliations
    produce two identities. *)
Lemma second_provider_without_photos :
  let w1 := (reconcile sample_clock sample_uuid ann_google_call initial).2 in
  let outcome :=
    reconcile sample_clock sample_uuid
      (mkCall github "gho_x" JUndefined
         (Profile.mk "g-42" (JStr "Ann") (JStr "ann") None None)) w1 in
  outcome.1
    = Normal (done (Some (TypeError "Cannot read properties of undefined (reading '0')"))
                   None)
  ∧ JsMap.keys (users outcome.2) = ["uuid-"].
Proof. by split. Qed.

(** C8, as the code has it.  In any Map the callbacks have built, no stored
    identity holds the subject id [s] under both providers, so the same
    literal subject id under two providers never resolves to one identity.
    A callback of one provider followed by a callback of the other provider
    for the same [s] both return an identity when both profiles can be read
    by the creation branch; and whenever both return an identity, the two
    identities have different [id]s and the Map holds both, each under its
    own [id], provided [crypto.randomUUID()] never returns the same
    identifier twice. *)
Theorem cross_provider_distinct (clock : nat → Z) (uuid_source : nat → string)
    (cs : list Call) (c1 c2 : Call) :
  let w := run_calls clock uuid_source cs initial in
  let s := Profile.id (call_profile c1) in
  call_provider c1 ≠ call_provider c2 →
  Profile.id (call_profile c2) = s →
  (∀ u, u ∈ JsMap.values (users w) →
        ¬ (subject_of (call_provider c1) u = Some s ∧
           subject_of (call_provider c2) u = Some s))
  ∧ (creatable (call_provider c1) (call_profile c1) = true →
     creatable (call_provider c2) (call_profile c2) = true →
     ∃ u1 w1 u2 w2,
       reconcile clock uuid_source c1 w = (Normal (done None (Some u1)), w1) ∧
       reconcile clock uuid_source c2 w1 = (Normal (done None (Some u2)), w2))
  ∧ ((∀ i j, uuid_source i = uuid_source j → i = j) →
     ∀ u1 w1 u2 w2,
       reconcile clock uuid_source c1 w = (Normal (done None (Some u1)), w1) →
       reconcile clock uuid_source c2 w1 = (Normal (done None (Some u2)), w2) →
       User.id u1 ≠ User.id u2 ∧
       JsMap.get (User.id u1) (users w2) = Some u1 ∧
       JsMap.get (User.id u2) (users w2) = Some u2).
Proof.
  intros w s Hp Hs.
  assert (reachable clock uuid_source w) as Hreach by (by exists cs).
  split_and!.
  - intros u Hin [H1 H2].
    destruct (reachable_store_ok _ _ _ Hreach) as [_ _ Hone].
    destruct (Hone u Hin);
      destruct (call_provider c1), (call_provider c2); simpl in *; congruence.
  - intros Hc1 Hc2.
    destruct (proj2 (reconcile_returns_identity clock uuid_source c1 w)
                (or_intror Hc1)) as (u1 & w1 & Hrun1).
    destruct (proj2 (reconcile_returns_identity clock uuid_source c2 w1)
                (or_intror Hc2)) as (u2 & w2 & Hrun2).
    by exists u1, w1, u2, w2.
  - intros Hinj u1 w1 u2 w2 Hrun1 Hrun2.
    apply (distinct_ids_when_fresh clock uuid_source c1 c2 w w1 w2);
      [done|done|by rewrite Hs|done| |done].
    assert (w1 = run_calls clock uuid_source (cs ++ [c1]) initial) as ->.
    { rewrite run_calls_snoc. fold w. by rewrite Hrun1. }
    intros Hin.
    destruct (stored_keys_were_drawn clock uuid_source (cs ++ [c1]) _ Hin)
      as (n & Hn & Heq).
    apply Hinj in Heq. lia.
Qed.

Lemma cross_provider_distinct_witness :
  let u1 := created sample_clock sample_uuid ann_google_call initial in
  ∃ u2 w2,
    reconcile sample_clock sample_uuid ann_github_call
        (reconcile sample_clock sample_uuid ann_google_call initial).2
      = (Normal (done None (Some u2)), w2) ∧
    User.id u1 ≠ User.id u2 ∧
    JsMap.get (User.id u1) (users w2) = Some u1 ∧
    JsMap.get (User.id u2) (users w2) = Some u2.
Proof.
  destruct (cross_provider_distinct sample_clock sample_uuid []
              ann_google_call ann_github_call) as (_ & _ & Hdistinct);
    [discriminate|reflexivity|].
  eexists _, _. split; [reflexivity|].
  by apply (Hdistinct sample_uuid_inj _ _ _ _ eq_refl eq_refl).
Defined.
